(** * Music-library mind map: the tree builder of [src/App.tsx]

    A shallow embedding of [buildMindMap] (App.tsx, lines 33-81) and the
    properties of the tree it builds.

    The TypeScript code allocates [Node] objects and then mutates them
    ([children.push]); year and genre nodes hold a reference back to their
    track node, and every node but the root holds a reference to its
    parent, so the result is a cyclic object graph.  The embedding
    therefore keeps an explicit store: a heap of [Node] objects addressed
    by position, the caller's input array, and the own properties of the
    local [artistMap] object.  Code is written in a small state-and-
    exception monad. *)

From Stdlib Require Import Ascii String.
From stdpp Require Import base option list strings gmap.

(** ** Data model (App.tsx, lines 5-18) *)

(** [interface Track] *)
Record Track := mkTrack {
  Artist : string;
  TrackName : string;
  Year : string;
  Genre : string;
}.

(** The union type of [Node.type]. *)
Inductive NodeType := artist | track | year | genre.

(** An object reference.  [Addr a] designates the [Node] object stored at
    position [a] of the heap.  [Builtin k] designates the object that the
    JavaScript runtime stores under the key [k] of [Object.prototype]
    (a function, or the prototype object itself for ["__proto__"]); such an
    object is not a [Node] and has no property [children]. *)
Inductive ref :=
  | Addr (a : nat)
  | Builtin (k : string).

(** [interface Node].  The optional [parent?] is an [option]. *)
Record Node := mkNode {
  id : string;
  label : string;
  children : list ref;
  type : NodeType;
  parent : option ref;
}.

#[global] Instance NodeType_eq_dec : EqDecision NodeType.
Proof. solve_decision. Defined.
#[global] Instance ref_eq_dec : EqDecision ref.
Proof. solve_decision. Defined.
#[global] Instance Track_eq_dec : EqDecision Track.
Proof. solve_decision. Defined.
#[global] Instance Node_eq_dec : EqDecision Node.
Proof. solve_decision. Defined.

(** ** The store *)

(** What a running call can read and write: the array passed as [tracks]
    with the records in it, the heap of [Node] objects, and the own
    properties of [artistMap]. *)
Record Store := mkStore {
  tracks : list Track;
  heap : list Node;
  artistMap : gmap string ref;
}.

Inductive Error :=
  | TypeError (msg : string).

(** How the evaluation of a piece of code ends. *)
Inductive Completion (A : Type) :=
  | Normal (a : A)
  | Throw (e : Error).
Arguments Normal {A} a.
Arguments Throw {A} e.

Definition JS (A : Type) : Type := Store → Completion A * Store.

#[global] Instance JS_ret : MRet JS := λ A a st, (Normal a, st).

#[global] Instance JS_bind : MBind JS := λ A B k m st,
  match m st with
  | (Normal a, st') => k a st'
  | (Throw e, st') => (Throw e, st')
  end.

Definition throw {A} (e : Error) : JS A := λ st, (Throw e, st).

(** ** The JavaScript operations the builder uses *)

(** The property names every plain object inherits from
    [Object.prototype] (ECMAScript 2015, sections 19.1.3 and B.2.2.1).  All
    of them hold an object, hence a truthy value. *)
Definition Object_prototype_keys : list string :=
  [ "constructor"; "hasOwnProperty"; "isPrototypeOf"; "propertyIsEnumerable";
    "toLocaleString"; "toString"; "valueOf"; "__proto__";
    "__defineGetter__"; "__defineSetter__";
    "__lookupGetter__"; "__lookupSetter__" ].

(** [obj[k]] on an object created by the literal [{}] whose own properties
    are [own]: the own property if there is one, then the property
    inherited from [Object.prototype], else [undefined] ([None]). *)
Definition get_property (own : gmap string ref) (k : string) : option ref :=
  match own !! k with
  | Some r => Some r
  | None => if decide (k ∈ Object_prototype_keys) then Some (Builtin k) else None
  end.

(** [artistMap[k]] *)
Definition artistMap_get (k : string) : JS (option ref) :=
  λ st, (Normal (get_property (artistMap st) k), st).

(** [artistMap[k] = r] *)
Definition artistMap_set (k : string) (r : ref) : JS unit :=
  λ st, (Normal tt,
         {| tracks := tracks st; heap := heap st;
            artistMap := <[k := r]> (artistMap st) |}).

(** Evaluation of an object literal of type [Node]: a fresh object, stored
    at the end of the heap. *)
Definition alloc (n : Node) : JS ref :=
  λ st, (Normal (Addr (length (heap st))),
         {| tracks := tracks st; heap := heap st ++ [n];
            artistMap := artistMap st |}).

Definition push (items : list ref) (n : Node) : Node :=
  {| id := id n; label := label n; children := children n ++ items;
     type := type n; parent := parent n |}.

(** [target.children.push(...items)].  On a [Node] the array stored in
    [children] grows in place.  A built-in object has no [children], so the
    call is the method call [undefined.push(...)], which throws (the
    message is the one V8 gives).  A reference always designates a live
    object, so the position is in range whenever [target] was obtained
    from the store. *)
Definition children_push (target : ref) (items : list ref) : JS unit :=
  match target with
  | Addr a =>
      λ st, (Normal tt,
             {| tracks := tracks st; heap := alter (push items) a (heap st);
                artistMap := artistMap st |})
  | Builtin _ =>
      throw (TypeError "Cannot read properties of undefined (reading 'push')")
  end.

(** [xs.map(f)] for an [f] that runs in the store. *)
Fixpoint array_map {A B} (f : A → JS B) (xs : list A) : JS (list B) :=
  match xs with
  | [] => mret []
  | x :: xs' => y ← f x; ys ← array_map f xs'; mret (y :: ys)
  end.

(** [tracks.forEach(callback)] (ECMAScript 22.1.3.10): the length is read
    once, then each index below it is read from the array as it is at that
    moment and passed to the callback. *)
Fixpoint forEach_from (callback : Track → JS unit) (k n : nat) : JS unit :=
  match n with
  | 0 => mret tt
  | S n' =>
      λ st, match tracks st !! k with
            | Some t => (callback t ;; forEach_from callback (S k) n') st
            | None => forEach_from callback (S k) n' st
            end
  end.

Definition forEach (callback : Track → JS unit) : JS unit :=
  λ st, forEach_from callback 0 (length (tracks st)) st.

(** [s.split(sep)] for a separator of one character: the pieces of [s]
    between the occurrences of [sep], in order; never empty. *)
Fixpoint split (sep : ascii) (s : string) : list string :=
  match s with
  | EmptyString => [EmptyString]
  | String c s' =>
      if decide (c = sep) then EmptyString :: split sep s'
      else match split sep s' with
           | tok :: toks => String c tok :: toks
           | [] => [String c EmptyString]
           end
  end.

(** ** [buildMindMap] (App.tsx, lines 33-81) *)

(** The arrow function passed to [forEach], lines 37-78.  [root] is the
    constant of line 34; the parameters [track] and [genre] of the source
    are written [t] and [g], the names being taken by the node types. *)
Definition callback (root : ref) (t : Track) : JS unit :=
  (* 38 *) found ← artistMap_get (Artist t);
  artistNode ← match found with
               | Some n => mret n
               | None => alloc {| id := Artist t; label := Artist t;
                                  children := []; type := artist;
                                  parent := Some root |}
               end;
  (* 46 *) found' ← artistMap_get (Artist t);
  match found' with
  | Some _ => mret tt
  | None =>
      (* 47 *) children_push root [artistNode] ;;
      (* 48 *) artistMap_set (Artist t) artistNode
  end ;;
  (* 51 *) trackNode ← alloc {| id := Artist t +:+ "-" +:+ TrackName t;
                                label := TrackName t;
                                children := []; type := track;
                                parent := Some artistNode |};
  (* 59 *) children_push artistNode [trackNode] ;;
  (* 61 *) yearNode ← alloc {| id := Artist t +:+ "-" +:+ TrackName t
                                      +:+ "-" +:+ Year t;
                               label := Year t;
                               children := [trackNode]; type := year;
                               parent := Some trackNode |};
  (* 69 *) genreNodes ← array_map
             (λ g, alloc {| id := Artist t +:+ "-" +:+ TrackName t
                                      +:+ "-" +:+ g;
                                label := g;
                                children := [trackNode]; type := genre;
                                parent := Some trackNode |})
             (split ";" (Genre t));
  (* 77 *) children_push trackNode (yearNode :: genreNodes).

Definition buildMindMap_body : JS ref :=
  (* 34 *) root ← alloc {| id := "root"; label := "Music Library";
                           children := []; type := artist; parent := None |};
  (* 37 *) forEach (callback root) ;;
  (* 80 *) mret root.

(** A call [buildMindMap(tracks)] made when the heap is [h]: the body runs
    with the parameter bound to the caller's array and with the fresh,
    empty [artistMap] of line 35. *)
Definition buildMindMap (input : list Track) (h : list Node)
  : Completion ref * Store :=
  buildMindMap_body {| tracks := input; heap := h; artistMap := ∅ |}.

(** The records of the scenario of the specification, section 8: the
    first three rows of [mockCSVData] (lines 20-26). *)
Definition scenario : list Track :=
  [ mkTrack "The Beatles" "Hey Jude" "1968" "Rock;Pop";
    mkTrack "The Beatles" "Let It Be" "1970" "Rock;Pop";
    mkTrack "Queen" "Bohemian Rhapsody" "1975" "Rock" ].

(** The six rows of [mockCSVData], as records. *)
Definition mockTracks : list Track :=
  scenario ++
  [ mkTrack "Queen" "We Will Rock You" "1977" "Rock;Funk";
    mkTrack "Led Zeppelin" "Kashmir" "1975" "Rock;Heavy Metal";
    mkTrack "Led Zeppelin" "Stairway to Heaven" "1971" "Rock;Heavy Metal" ].

(** ** Reading the heap *)

(** The [Node] a reference designates, if any. *)
Definition deref (h : list Node) (r : ref) : option Node :=
  match r with
  | Addr a => h !! a
  | Builtin _ => None
  end.

Definition children_of (h : list Node) (r : ref) : list ref :=
  from_option children [] (deref h r).

(** The distinct strings of a list, in the order of their first
    appearance. *)
Fixpoint first_appearances (l : list string) : list string :=
  match l with
  | [] => []
  | x :: l' => x :: filter (λ y, y ≠ x) (first_appearances l')
  end.

(** The position at which [x] first occurs in [l]. *)
Fixpoint first_index (x : string) (l : list string) : option nat :=
  match l with
  | [] => None
  | y :: l' => if decide (y = x) then Some 0 else S <$> first_index x l'
  end.

(** [xs.join(sep)] *)
Fixpoint join (sep : ascii) (xs : list string) : string :=
  match xs with
  | [] => EmptyString
  | [x] => x
  | x :: xs' => x +:+ String sep (join sep xs')
  end.

Fixpoint occurrences (c : ascii) (s : string) : nat :=
  match s with
  | EmptyString => 0
  | String c' s' => (if decide (c' = c) then 1 else 0) + occurrences c s'
  end.

(** ** The nodes the builder creates *)

Definition year_node (t : Track) (trackNode : ref) : Node :=
  {| id := Artist t +:+ "-" +:+ TrackName t +:+ "-" +:+ Year t;
     label := Year t; children := [trackNode]; type := year;
     parent := Some trackNode |}.

Definition genre_node (t : Track) (trackNode : ref) (g : string) : Node :=
  {| id := Artist t +:+ "-" +:+ TrackName t +:+ "-" +:+ g;
     label := g; children := [trackNode]; type := genre;
     parent := Some trackNode |}.

Definition track_node (t : Track) (artistNode : ref) (cs : list ref) : Node :=
  {| id := Artist t +:+ "-" +:+ TrackName t; label := TrackName t;
     children := cs; type := track; parent := Some artistNode |}.

Definition artist_node (a : string) (root : ref) (cs : list ref) : Node :=
  {| id := a; label := a; children := cs; type := artist;
     parent := Some root |}.

Definition root_node (cs : list ref) : Node :=
  {| id := "root"; label := "Music Library"; children := cs; type := artist;
     parent := None |}.

(** The objects lines 51-77 leave on the heap for the record [t], the track
    node being stored at position [a]. *)
Definition track_cells (a : nat) (artistNode : ref) (t : Track) : list Node :=
  track_node t artistNode
    (Addr (S a) :: (Addr <$> seq (S (S a)) (length (split ";" (Genre t)))))
  :: year_node t (Addr a)
  :: (genre_node t (Addr a) <$> split ";" (Genre t)).

(** Lines 51-77 of the callback. *)
Definition attach (artistNode : ref) (t : Track) : JS unit :=
  trackNode ← alloc (track_node t artistNode []);
  children_push artistNode [trackNode] ;;
  yearNode ← alloc (year_node t trackNode);
  genreNodes ← array_map (λ g, alloc (genre_node t trackNode g))
                 (split ";" (Genre t));
  children_push trackNode (yearNode :: genreNodes).

(** ** The loop *)

Definition keeps_tracks {A} (m : JS A) : Prop :=
  ∀ st, tracks (m st).2 = tracks st.

Definition run_all (cb : Track → JS unit) (ts : list Track) : JS unit :=
  foldr (λ t m, cb t ;; m) (mret tt) ts.

(** ** The shape of the heap *)

(** The records of one artist, in input order. *)
Definition records_of (ts : list Track) (a : string) : list Track :=
  filter (λ t, Artist t = a) ts.

(** [r] is the track node of the record [t], under the artist node [c]:
    its children are a year node followed by one genre node for each piece
    of the [Genre] field, and each of these refers back to [r]. *)
Definition is_track (h : list Node) (c r : ref) (t : Track) : Prop :=
  ∃ y gs,
    deref h r = Some (track_node t c (y :: gs)) ∧
    deref h y = Some (year_node t r) ∧
    Forall2 (λ g tok, deref h g = Some (genre_node t r tok))
      gs (split ";" (Genre t)).

(** [c] is the artist node for the name [a]: its children are the track
    nodes of the records of [ts] that carry this name, in input order. *)
Definition is_artist (h : list Node) (root : ref) (ts : list Track)
    (c : ref) (a : string) : Prop :=
  ∃ trs,
    deref h c = Some (artist_node a root trs) ∧
    NoDup trs ∧
    Forall2 (is_track h c) trs (records_of ts a).

(** [root] is the root of the tree of the records [ts]. *)
Definition is_tree (h : list Node) (root : ref) (ts : list Track) : Prop :=
  ∃ cs,
    deref h root = Some (root_node cs) ∧
    Forall2 (is_artist h root ts) cs (first_appearances (Artist <$> ts)).

(** What holds between two calls of the callback, [done] being the
    records already visited and [ρ] the position of the root. *)
Record loop_invariant (ρ : nat) (done : list Track) (st : Store) : Prop := {
  inv_root :
    ∃ cs, heap st !! ρ = Some (root_node cs) ∧
      Forall2 (λ c a, artistMap st !! a = Some c ∧
                      is_artist (heap st) (Addr ρ) done c a)
        cs (first_appearances (Artist <$> done));
  inv_dom : ∀ a, a ∉ Artist <$> done → artistMap st !! a = None;
  inv_safe : Forall (λ t, Artist t ∉ Object_prototype_keys) done;
}.

Definition unchanged_but (x : nat) (h h' : list Node) : Prop :=
  ∀ a n, a ≠ x → h !! a = Some n → h' !! a = Some n.

(** ** Reading the tree *)

(** [for_each_record h root ts P]: the track nodes are the children of the
    children of [root]; the n-th child [c] of the root belongs to the n-th
    distinct artist name, the children of [c] belong, in order, to the
    records of [ts] that carry this name, and [P c r t] holds of every
    record [t] and the track node [r] that belongs to it. *)
Definition for_each_record (h : list Node) (root : ref) (ts : list Track)
    (P : ref → ref → Track → Prop) : Prop :=
  Forall2 (λ c a, Forall2 (P c) (children_of h c) (records_of ts a))
    (children_of h root) (first_appearances (Artist <$> ts)).

(** The records of the scenario with two more artists, named after the
    identity and the label of the root. *)
Definition scenario_root_names : list Track :=
  scenario ++ [ mkTrack "root" "A" "2001" "Pop";
                mkTrack "Music Library" "B" "2002" "" ].

(** Two recordings of one title by one artist. *)
Definition repeated_title : list Track :=
  [ mkTrack "Queen" "We Will Rock You" "1977" "Rock";
    mkTrack "Queen" "We Will Rock You" "1992" "Rock" ].

(** All the track nodes of the tree, artist by artist. *)
Definition track_nodes (h : list Node) (root : ref) : list ref :=
  children_of h root ≫= children_of h.

(** [child_of h x y]: [y] is among the children of [x]. *)
Definition child_of (h : list Node) (x y : ref) : Prop := y ∈ children_of h x.

(** The nodes of the tree are those reached from the root by [child_of]. *)
Definition in_tree (h : list Node) (root r : ref) : Prop :=
  rtc (child_of h) root r.

(** ** Two calls on the same input *)

#[local] Unset Elimination Schemes.
(** What can be seen of a node by following [children] and [parent] at most
    [n] times: identities, labels, kinds and the order of children, but not
    the positions of the objects on the heap. *)
Inductive View :=
  | Cut
  | NoNode
  | ViewNode (vid vlabel : string) (vtype : NodeType)
      (vparent : option View) (vchildren : list View).
#[local] Set Elimination Schemes.

Fixpoint view (n : nat) (h : list Node) (r : ref) : View :=
  match n with
  | 0 => Cut
  | S n' =>
      match deref h r with
      | None => NoNode
      | Some nd =>
          ViewNode (id nd) (label nd) (type nd)
            (view n' h <$> parent nd) (view n' h <$> children nd)
      end
  end.

(** Two runs, one on a heap of [b1] objects and one on a heap of [b2]
    objects, are compared object by object: the [i]-th object allocated by
    the first with the [i]-th object allocated by the second. *)
Inductive rel_ref (b1 b2 : nat) : ref → ref → Prop :=
  | rel_Addr i : rel_ref b1 b2 (Addr (b1 + i)) (Addr (b2 + i))
  | rel_Builtin k : rel_ref b1 b2 (Builtin k) (Builtin k).

Record rel_node (b1 b2 : nat) (n1 n2 : Node) : Prop := {
  rel_id : id n1 = id n2;
  rel_label : label n1 = label n2;
  rel_type : type n1 = type n2;
  rel_children : Forall2 (rel_ref b1 b2) (children n1) (children n2);
  rel_parent : option_Forall2 (rel_ref b1 b2) (parent n1) (parent n2);
}.

Definition rel_heap (b1 b2 : nat) (h1 h2 : list Node) : Prop :=
  ∃ pre1 new1 pre2 new2,
    h1 = pre1 ++ new1 ∧ h2 = pre2 ++ new2 ∧
    length pre1 = b1 ∧ length pre2 = b2 ∧
    Forall2 (rel_node b1 b2) new1 new2.

Record rel_store (b1 b2 : nat) (s1 s2 : Store) : Prop := {
  rel_tracks : tracks s1 = tracks s2;
  rel_heaps : rel_heap b1 b2 (heap s1) (heap s2);
  rel_artistMap :
    ∀ k, option_Forall2 (rel_ref b1 b2) (artistMap s1 !! k) (artistMap s2 !! k);
}.

Definition rel_completion {A} (RA : A → A → Prop)
    (c1 c2 : Completion A) : Prop :=
  match c1, c2 with
  | Normal a1, Normal a2 => RA a1 a2
  | Throw e1, Throw e2 => e1 = e2
  | _, _ => False
  end.

Definition rel_JS {A} (b1 b2 : nat) (RA : A → A → Prop)
    (m1 m2 : JS A) : Prop :=
  ∀ s1 s2, rel_store b1 b2 s1 s2 →
    rel_completion RA (m1 s1).1 (m2 s2).1 ∧
    rel_store b1 b2 (m1 s1).2 (m2 s2).2.

(** ** Errors and the objects a call works on *)

(** [m] throws nothing but [e]. *)
Definition throws_only {A} (e : Error) (m : JS A) : Prop :=
  ∀ st e' st', m st = (Throw e', st') → e' = e.

(** [r] is not one of the first [b] objects of the heap. *)
Definition above (b : nat) (r : ref) : Prop :=
  match r with
  | Addr a => b ≤ a
  | Builtin _ => True
  end.

Definition node_above (b : nat) (n : Node) : Prop :=
  Forall (above b) (children n) ∧ ∀ p, parent n = Some p → above b p.

(** The first [b] objects of the heap are [old], and neither the objects
    after them nor [artistMap] refer to them. *)
Record scoped (old : list Node) (st : Store) : Prop := {
  scoped_old : take (length old) (heap st) = old;
  scoped_length : length old ≤ length (heap st);
  scoped_new : Forall (node_above (length old)) (drop (length old) (heap st));
  scoped_artistMap : ∀ k r, artistMap st !! k = Some r → above (length old) r;
}.

(** [m] keeps [scoped old], and gives a value that satisfies [Q] when it
    ends normally. *)
Definition keeps_scoped {A} (old : list Node) (Q : A → Prop) (m : JS A) : Prop :=
  ∀ st, scoped old st →
    scoped old (m st).2 ∧ ∀ a, (m st).1 = Normal a → Q a.

(** ** The size of the tree *)

(** The nodes of the tree, level by level: the root, the artist nodes,
    the track nodes, the year and genre nodes. *)
Definition tree_nodes (h : list Node) (root : ref) : list ref :=
  root :: children_of h root ++ track_nodes h root
       ++ (track_nodes h root ≫= children_of h).

(** The number of pieces of the [Genre] field of a record. *)
Definition pieces (t : Track) : nat := length (split ";" (Genre t)).

(** One root, one node for each distinct artist name, and for each record
    a track node, a year node and a genre node for each piece. *)
Definition node_count (ts : list Track) : nat :=
  1 + length (first_appearances (Artist <$> ts))
    + sum_list_with (λ t, 2 + pieces t) ts.

(** What the loop keeps besides [loop_invariant]: the children that a
    track node was given are different objects, and the heap has grown by
    the nodes of the records visited. *)
Record census_invariant (ρ : nat) (done : list Track) (st : Store) : Prop := {
  census_children :
    Forall (λ n, type n = track → NoDup (children n)) (drop ρ (heap st));
  census_length : length (heap st) = ρ + node_count done;
}.

(** ** Walking up *)

(** The node reached from [r] by following [parent] [k] times. *)
Fixpoint ancestor (k : nat) (h : list Node) (r : ref) : option ref :=
  match k with
  | 0 => Some r
  | S k' => n ← deref h r; p ← parent n; ancestor k' h p
  end.

(** ** Reading the records back *)

(** The record a track node stands for, read off the tree: the artist is
    the label of the parent, the title the label of the node, the year
    the label of the first child, and the genre field the labels of the
    other children joined with [;]. *)
Definition read_track (h : list Node) (r : ref) : option Track :=
  n ← deref h r;
  p ← parent n;
  pn ← deref h p;
  match children n with
  | [] => None
  | y :: gs =>
      yn ← deref h y;
      toks ← mapM (λ g, label <$> deref h g) gs;
      Some {| Artist := label pn; TrackName := label n;
              Year := label yn; Genre := join ";" toks |}
  end.

Definition read_tracks (h : list Node) (root : ref) : option (list Track) :=
  mapM (read_track h) (track_nodes h root).

(** ** Trees of the same records *)

(** Two nodes, one in each of two trees of the records [ts], stand at the
    same place: both are the root, or the artist node of one name, or the
    track node of one record under this name, or its year node, or its
    genre node for one piece. *)
Inductive same_place (h1 h2 : list Node) (root1 root2 : ref)
    (ts : list Track) : ref → ref → Prop :=
  | same_root : same_place h1 h2 root1 root2 ts root1 root2
  | same_artist c1 c2 a :
      is_artist h1 root1 ts c1 a → is_artist h2 root2 ts c2 a →
      same_place h1 h2 root1 root2 ts c1 c2
  | same_track c1 c2 a r1 r2 t :
      is_artist h1 root1 ts c1 a → is_artist h2 root2 ts c2 a →
      is_track h1 c1 r1 t → is_track h2 c2 r2 t →
      same_place h1 h2 root1 root2 ts r1 r2
  | same_year c1 c2 a r1 r2 t y1 y2 :
      is_artist h1 root1 ts c1 a → is_artist h2 root2 ts c2 a →
      is_track h1 c1 r1 t → is_track h2 c2 r2 t →
      deref h1 y1 = Some (year_node t r1) →
      deref h2 y2 = Some (year_node t r2) →
      same_place h1 h2 root1 root2 ts y1 y2
  | same_genre c1 c2 a r1 r2 t g1 g2 tok :
      is_artist h1 root1 ts c1 a → is_artist h2 root2 ts c2 a →
      is_track h1 c1 r1 t → is_track h2 c2 r2 t →
      deref h1 g1 = Some (genre_node t r1 tok) →
      deref h2 g2 = Some (genre_node t r2 tok) →
      same_place h1 h2 root1 root2 ts g1 g2.

(** The records of the scenario with those of the two artists
    interleaved. *)
Definition scenario_interleaved : list Track :=
  [ mkTrack "The Beatles" "Hey Jude" "1968" "Rock;Pop";
    mkTrack "Queen" "Bohemian Rhapsody" "1975" "Rock";
    mkTrack "The Beatles" "Let It Be" "1970" "Rock;Pop" ].

(** ** [MindMapNode] (App.tsx, lines 83-111) *)

(** The button of a node, lines 90-101: its class list, its
    [aria-label] and the text it shows.  The class list is a template
    literal; for a node that is not of kind [artist] the interpolated
    expression [node.type === 'artist' && 'font-bold'] is [false], which
    the template turns into the word [false]. *)
Record Button := mkButton {
  className : string;
  ariaLabel : string;
  caption : string;
}.

(** What one call of the component returns, lines 88-110: the button
    and, when the [&&] chain of line 102 is truthy, the panel below it,
    with one [MindMapNode] element for each child, given here by its
    [key] and its [node]. *)
Record Rendered := mkRendered {
  button : Button;
  panel : option (list (string * ref));
}.

(** The component, for the value [isOpen] of its state.  [None] stands
    for a [node] or a child that is no [Node] object, which the types of
    the source rule out. *)
Definition MindMapNode (h : list Node) (node : ref) (isOpen : bool)
  : option Rendered :=
  n ← deref h node;
  below ← (if isOpen && bool_decide (0 < length (children n))
           then Some <$> mapM (λ child, c ← deref h child; Some (id c, child))
                           (children n)
           else Some None);
  Some {| button :=
            {| className :=
                 "cursor-pointer p-2 rounded-lg bg-blue-500 text-white mb-2 "
                 +:+ (if decide (type n = artist) then "font-bold" else "false");
               ariaLabel := "Toggle " +:+ label n;
               caption := label n |};
          panel := below |}.

(** The keys of the child elements of a node that is open. *)
Definition child_keys (h : list Node) (node : ref) : option (list string) :=
  r ← MindMapNode h node true; Some (fst <$> default [] (panel r)).

#[local] Unset Elimination Schemes.
(** What is on the page for a node once React has expanded every
    [MindMapNode] element below it. *)
Inductive Dom :=
  | DomNode (b : Button) (below : option (list (string * Dom))).
#[local] Set Elimination Schemes.

(** How an expansion that is cut off at some depth ends: with its result,
    or at an element that lies deeper, or at something that is no
    [Node]. *)
Inductive Expansion (A : Type) :=
  | Expanded (a : A)
  | Deeper
  | NotANode.
Arguments Expanded {A} a.
Arguments Deeper {A}.
Arguments NotANode {A}.

(** The expansions of the children, in order. *)
Fixpoint collect {A} (ms : list (string * Expansion A))
  : Expansion (list (string * A)) :=
  match ms with
  | [] => Expanded []
  | (k, m) :: ms' =>
      match m with
      | Expanded a =>
          match collect ms' with
          | Expanded l => Expanded ((k, a) :: l)
          | Deeper => Deeper
          | NotANode => NotANode
          end
      | Deeper => Deeper
      | NotANode => NotANode
      end
  end.

(** The first render of [<MindMapNode node={node} />], as React performs
    it: the component is called with its initial state, [useState(true)]
    of line 84, and then every [MindMapNode] element of the panel is
    rendered in the same way.  [depth] bounds the nesting of elements. *)
Fixpoint mount (depth : nat) (h : list Node) (node : ref) : Expansion Dom :=
  match depth with
  | 0 => Deeper
  | S depth' =>
      match MindMapNode h node true with
      | None => NotANode
      | Some r =>
          match panel r with
          | None => Expanded (DomNode (button r) None)
          | Some kids =>
              match collect ((λ kc, (kc.1, mount depth' h kc.2)) <$> kids) with
              | Expanded l => Expanded (DomNode (button r) (Some l))
              | Deeper => Deeper
              | NotANode => NotANode
              end
          end
      end
  end.

(** * Properties *)

(** ** [split] *)

Lemma split_nonempty sep s : split sep s ≠ [].
Proof. destruct s as [|c s]; simpl; [done|]. repeat case_match; done. Qed.

Lemma length_split sep s : length (split sep s) = S (occurrences sep s).
Proof.
  induction s as [|c s IH]; simpl; [done|].
  case_decide; simpl; [by rewrite IH|].
  destruct (split sep s) eqn:E; simpl in *; [done|lia].
Qed.

Lemma join_split sep s : join sep (split sep s) = s.
Proof.
  induction s as [|c s IH]; simpl; [done|].
  case_decide as Hc.
  - subst c. destruct (split sep s) eqn:E; [by destruct (split_nonempty sep s)|].
    by rewrite <- IH.
  - destruct (split sep s) as [|tok toks] eqn:E;
      [by destruct (split_nonempty sep s)|].
    rewrite <- IH. by destruct toks.
Qed.

Lemma split_tokens sep s tok :
  tok ∈ split sep s → occurrences sep tok = 0.
Proof.
  revert tok. induction s as [|c s IH]; simpl; intros tok.
  - by intros ->%list_elem_of_singleton.
  - case_decide as Hc.
    + intros [->|?]%elem_of_cons; [done|by apply IH].
    + destruct (split sep s) as [|tok' toks] eqn:E.
      * intros ->%list_elem_of_singleton. simpl. by rewrite decide_False.
      * intros [->|?]%elem_of_cons.
        -- simpl. rewrite decide_False by done. simpl. apply IH. left.
        -- apply IH. by right.
Qed.

(** ** The effect of one call of the callback *)

Lemma bind_run {A B} (m : JS A) (k : A → JS B) st :
  (m ≫= k) st = match m st with
                | (Normal a, st') => k a st'
                | (Throw e, st') => (Throw e, st')
                end.
Proof. reflexivity. Qed.

Lemma ret_run {A} (a : A) st : (mret a : JS A) st = (Normal a, st).
Proof. reflexivity. Qed.

Lemma alloc_run n st :
  alloc n st = (Normal (Addr (length (heap st))),
                {| tracks := tracks st; heap := heap st ++ [n];
                   artistMap := artistMap st |}).
Proof. reflexivity. Qed.

Lemma children_push_run a items st :
  children_push (Addr a) items st =
    (Normal tt, {| tracks := tracks st;
                   heap := alter (push items) a (heap st);
                   artistMap := artistMap st |}).
Proof. reflexivity. Qed.

Ltac js_step :=
  repeat (first [ rewrite bind_run | rewrite ret_run | rewrite alloc_run
                | rewrite children_push_run ];
          cbn [tracks heap artistMap]).

Lemma callback_unfold root t :
  callback root t =
    (found ← artistMap_get (Artist t);
     artistNode ← match found with
                  | Some n => mret n
                  | None => alloc (artist_node (Artist t) root [])
                  end;
     found' ← artistMap_get (Artist t);
     match found' with
     | Some _ => mret tt
     | None => children_push root [artistNode] ;;
               artistMap_set (Artist t) artistNode
     end ;;
     attach artistNode t).
Proof. reflexivity. Qed.

Lemma array_map_alloc (mk : string → Node) toks st :
  array_map (λ g, alloc (mk g)) toks st =
    (Normal (Addr <$> seq (length (heap st)) (length toks)),
     {| tracks := tracks st; heap := heap st ++ (mk <$> toks);
        artistMap := artistMap st |}).
Proof.
  revert st. induction toks as [|g toks IH]; intros st; cbn [array_map].
  - rewrite ret_run. simpl. rewrite app_nil_r. by destruct st.
  - js_step. rewrite IH. js_step. rewrite length_app, <- app_assoc. simpl.
    by replace (length (heap st) + 1) with (S (length (heap st))) by lia.
Qed.

Lemma attach_node c t st :
  c < length (heap st) →
  attach (Addr c) t st =
    (Normal tt,
     {| tracks := tracks st;
        heap := alter (push [Addr (length (heap st))]) c (heap st)
                ++ track_cells (length (heap st)) (Addr c) t;
        artistMap := artistMap st |}).
Proof.
  intros Hc. unfold attach. js_step. rewrite array_map_alloc. js_step.
  f_equal. f_equal.
  rewrite (alter_app_l _ (heap st)) by done.
  rewrite !length_app, length_alter. simpl.
  replace (length (heap st) + 1 + 1) with (S (S (length (heap st)))) by lia.
  replace (length (heap st) + 1) with (S (length (heap st))) by lia.
  rewrite <- !app_assoc. simpl.
  set (A := alter _ c (heap st)).
  replace (length (heap st)) with (length A + 0) at 3
    by (unfold A; rewrite length_alter; lia).
  rewrite alter_app_r. simpl. reflexivity.
Qed.

Lemma attach_builtin k t st :
  (attach (Builtin k) t st).1 =
    Throw (TypeError "Cannot read properties of undefined (reading 'push')").
Proof. reflexivity. Qed.

Lemma callback_existing root t st c :
  get_property (artistMap st) (Artist t) = Some (Addr c) →
  c < length (heap st) →
  callback root t st =
    (Normal tt,
     {| tracks := tracks st;
        heap := alter (push [Addr (length (heap st))]) c (heap st)
                ++ track_cells (length (heap st)) (Addr c) t;
        artistMap := artistMap st |}).
Proof.
  intros Hget Hc. rewrite callback_unfold.
  rewrite bind_run. unfold artistMap_get at 1. rewrite Hget.
  js_step. unfold artistMap_get at 1. rewrite Hget. js_step.
  rewrite attach_node by done. by destruct st.
Qed.

Lemma callback_new ρ t st :
  get_property (artistMap st) (Artist t) = None →
  ρ < length (heap st) →
  callback (Addr ρ) t st =
    (Normal tt,
     {| tracks := tracks st;
        heap := alter (push [Addr (length (heap st))]) ρ (heap st)
                ++ artist_node (Artist t) (Addr ρ) [Addr (S (length (heap st)))]
                   :: track_cells (S (length (heap st)))
                        (Addr (length (heap st))) t;
        artistMap := <[Artist t := Addr (length (heap st))]> (artistMap st) |}).
Proof.
  intros Hget Hρ. rewrite callback_unfold.
  rewrite bind_run. unfold artistMap_get at 1. rewrite Hget.
  js_step. unfold artistMap_get at 1. cbn [artistMap]. rewrite Hget.
  js_step. unfold artistMap_set. cbn [tracks heap artistMap].
  rewrite attach_node; cbn [tracks heap artistMap].
  2:{ rewrite length_alter, length_app. simpl. lia. }
  f_equal. f_equal.
  rewrite length_alter, length_app. simpl.
  replace (length (heap st) + 1) with (S (length (heap st))) by lia.
  rewrite (alter_app_l _ (heap st)) by done.
  set (A := alter _ ρ (heap st)).
  replace (length (heap st)) with (length A + 0) at 2
    by (unfold A; rewrite length_alter; lia).
  rewrite alter_app_r. simpl. rewrite <- app_assoc. reflexivity.
Qed.

Lemma callback_builtin root t st k :
  get_property (artistMap st) (Artist t) = Some (Builtin k) →
  (callback root t st).1 =
    Throw (TypeError "Cannot read properties of undefined (reading 'push')").
Proof.
  intros Hget. rewrite callback_unfold.
  rewrite bind_run. unfold artistMap_get at 1. rewrite Hget.
  js_step. unfold artistMap_get at 1. rewrite Hget. js_step.
  apply attach_builtin.
Qed.

(** ** The input array is only read *)

Lemma keeps_tracks_bind {A B} (m : JS A) (k : A → JS B) :
  keeps_tracks m → (∀ a, keeps_tracks (k a)) → keeps_tracks (m ≫= k).
Proof.
  intros Hm Hk st. rewrite bind_run. specialize (Hm st).
  destruct (m st) as [[a|e] st']; simpl in *; [|done].
  by rewrite Hk.
Qed.

Lemma keeps_tracks_ret {A} (a : A) : keeps_tracks (mret a).
Proof. done. Qed.

Lemma keeps_tracks_alloc n : keeps_tracks (alloc n).
Proof. done. Qed.

Lemma keeps_tracks_children_push r items : keeps_tracks (children_push r items).
Proof. by destruct r. Qed.

Lemma keeps_tracks_artistMap_get k : keeps_tracks (artistMap_get k).
Proof. done. Qed.

Lemma keeps_tracks_artistMap_set k r : keeps_tracks (artistMap_set k r).
Proof. done. Qed.

Lemma keeps_tracks_array_map {A B} (f : A → JS B) xs :
  (∀ x, keeps_tracks (f x)) → keeps_tracks (array_map f xs).
Proof.
  intros Hf. induction xs as [|x xs IH]; simpl.
  - apply keeps_tracks_ret.
  - apply keeps_tracks_bind; [done|]. intros y.
    apply keeps_tracks_bind; [done|]. intros ys. apply keeps_tracks_ret.
Qed.

Create HintDb keeps discriminated.
#[local] Hint Resolve keeps_tracks_ret keeps_tracks_alloc
  keeps_tracks_children_push keeps_tracks_artistMap_get
  keeps_tracks_artistMap_set : keeps.

Lemma keeps_tracks_callback root t : keeps_tracks (callback root t).
Proof.
  unfold callback.
  repeat (first [ apply keeps_tracks_bind; [|intros ?]
                | apply keeps_tracks_array_map; intros ?
                | case_match
                | solve [auto with keeps] ]).
Qed.

Lemma keeps_tracks_forEach_from cb k n :
  (∀ t, keeps_tracks (cb t)) → keeps_tracks (forEach_from cb k n).
Proof.
  intros Hcb. revert k. induction n as [|n IH]; intros k st; simpl; [done|].
  destruct (tracks st !! k) as [t|]; [|apply IH].
  apply (keeps_tracks_bind (cb t) (λ _, forEach_from cb (S k) n)); auto.
Qed.

Lemma keeps_tracks_buildMindMap_body : keeps_tracks buildMindMap_body.
Proof.
  unfold buildMindMap_body.
  apply keeps_tracks_bind; [auto with keeps|]. intros root.
  apply keeps_tracks_bind; [|auto with keeps].
  intros st. apply keeps_tracks_forEach_from, keeps_tracks_callback.
Qed.

(** ** [forEach] visits the records of the input in order *)

Lemma forEach_from_run_all cb k n st :
  (∀ t, keeps_tracks (cb t)) →
  k + n = length (tracks st) →
  forEach_from cb k n st = run_all cb (drop k (tracks st)) st.
Proof.
  intros Hcb. revert k st. induction n as [|n IH]; intros k st Hk; simpl.
  - by rewrite drop_ge by lia.
  - destruct (tracks st !! k) as [t|] eqn:Ht.
    2:{ apply lookup_ge_None in Ht. lia. }
    rewrite (drop_S _ _ _ Ht). simpl. rewrite !bind_run.
    pose proof (Hcb t st) as Hkeep.
    destruct (cb t st) as [[[]|e] st']; simpl in *; [|done].
    rewrite IH by (rewrite Hkeep; lia). by rewrite Hkeep.
Qed.

Lemma forEach_run_all cb st :
  (∀ t, keeps_tracks (cb t)) →
  forEach cb st = run_all cb (tracks st) st.
Proof. intros Hcb. unfold forEach. by rewrite forEach_from_run_all. Qed.

(** ** [first_appearances] *)

Lemma elem_of_first_appearances l x : x ∈ first_appearances l ↔ x ∈ l.
Proof.
  induction l as [|y l IH]; simpl; [done|].
  rewrite !elem_of_cons, list_elem_of_filter, IH.
  destruct (decide (x = y)); intuition congruence.
Qed.

Lemma NoDup_first_appearances l : NoDup (first_appearances l).
Proof.
  induction l as [|y l IH]; simpl; [constructor|].
  constructor; [|by apply NoDup_filter].
  rewrite list_elem_of_filter. intros [? _]. done.
Qed.

Lemma first_appearances_snoc l x :
  first_appearances (l ++ [x]) =
    if decide (x ∈ l) then first_appearances l else first_appearances l ++ [x].
Proof.
  induction l as [|y l IH]; simpl; [done|].
  rewrite IH. destruct (decide (x = y)) as [->|Hxy].
  - rewrite (decide_True (P := y ∈ y :: l)) by left.
    case_decide; [done|].
    rewrite filter_app, filter_cons, filter_nil.
    rewrite decide_False by (intros H'; by apply H').
    by rewrite app_nil_r.
  - destruct (decide (x ∈ l)) as [Hx|Hx].
    + by rewrite decide_True by by right.
    + rewrite decide_False by (rewrite elem_of_cons; intuition congruence).
      rewrite filter_app, filter_cons, filter_nil. by rewrite decide_True by done.
Qed.

(** ** The order of [first_appearances] *)

Lemma first_index_elem_of x l : x ∈ l → is_Some (first_index x l).
Proof.
  induction l as [|y l IH]; [by intros ?%elem_of_nil|].
  intros Hx. simpl. case_decide as Hy; [by eexists|].
  apply elem_of_cons in Hx as [->|Hx]; [done|].
  destruct (IH Hx) as [i ->]. by eexists.
Qed.

Lemma filter_lookup_inv_two {A} (P : A → Prop) `{∀ x, Decision (P x)}
    (l : list A) i j a b :
  i < j → filter P l !! i = Some a → filter P l !! j = Some b →
  ∃ i' j', i' < j' ∧ l !! i' = Some a ∧ l !! j' = Some b ∧ P a ∧ P b.
Proof.
  revert i j. induction l as [|y l IH]; intros i j Hij; [done|].
  rewrite filter_cons. case_decide as Hy.
  - destruct j as [|j]; [lia|]. destruct i as [|i]; simpl.
    + intros [= ->] Hb.
      apply list_elem_of_lookup_2, list_elem_of_filter in Hb as [Hb Hin].
      apply list_elem_of_lookup in Hin as [k Hk].
      exists 0, (S k). split_and!; [lia|done..].
    + intros Ha Hb. destruct (IH i j) as (i' & j' & ? & ? & ? & ? & ?);
        [lia|done..|].
      exists (S i'), (S j'). split_and!; [lia|done..].
  - intros Ha Hb. destruct (IH i j) as (i' & j' & ? & ? & ? & ? & ?);
      [lia|done..|].
    exists (S i'), (S j'). split_and!; [lia|done..].
Qed.

(** A name stands before another in [first_appearances l] only if it
    occurs in [l] before the other does. *)
Lemma first_appearances_order l i j a b :
  i < j →
  first_appearances l !! i = Some a → first_appearances l !! j = Some b →
  ∃ ia ib, first_index a l = Some ia ∧ first_index b l = Some ib ∧ ia < ib.
Proof.
  revert i j. induction l as [|x l IH]; intros i j Hij; [done|].
  destruct j as [|j]; [lia|]. simpl. destruct i as [|i]; simpl.
  - intros [= ->] Hb.
    apply list_elem_of_lookup_2, list_elem_of_filter in Hb as [Hne Hin].
    apply (proj1 (elem_of_first_appearances _ _)) in Hin.
    apply first_index_elem_of in Hin as [ib Hib].
    exists 0, (S ib). rewrite decide_True, decide_False, Hib by done.
    split_and!; [done..|lia].
  - intros Ha Hb.
    destruct (filter_lookup_inv_two (λ y, y ≠ x) (first_appearances l)
                i j a b) as (i' & j' & ? & ? & ? & ? & ?); [lia|done..|].
    destruct (IH i' j') as (ia & ib & Hia & Hib & ?); [done..|].
    exists (S ia), (S ib). rewrite !decide_False, Hia, Hib by done.
    split_and!; [done..|lia].
Qed.

(** ** The invariant of the loop *)

Lemma unchanged_alter_app f x h ext : unchanged_but x h (alter f x h ++ ext).
Proof.
  intros a n Hne Ha. apply lookup_app_l_Some.
  by rewrite list_lookup_alter_ne.
Qed.

Lemma lookup_alter_app f x (h ext : list Node) n :
  h !! x = Some n → (alter f x h ++ ext) !! x = Some (f n).
Proof.
  intros Hx. apply lookup_app_l_Some. by rewrite list_lookup_alter_eq, Hx.
Qed.

Lemma deref_Some h r n : deref h r = Some n → ∃ a, r = Addr a ∧ h !! a = Some n.
Proof. destruct r; simpl; [eauto|done]. Qed.

Lemma deref_lt h r n : deref h r = Some n → r ≠ Addr (length h).
Proof.
  intros (a & -> & Ha)%deref_Some [= ->]. apply lookup_lt_Some in Ha. lia.
Qed.

Lemma deref_unchanged x nx h h' r n :
  unchanged_but x h h' → h !! x = Some nx → type nx = artist →
  deref h r = Some n → type n ≠ artist → deref h' r = Some n.
Proof.
  intros Hun Hx Hnx (a & -> & Ha)%deref_Some Hn. simpl. apply Hun; [|done].
  intros ->. congruence.
Qed.

Lemma is_track_unchanged x nx h h' c r t :
  unchanged_but x h h' → h !! x = Some nx → type nx = artist →
  is_track h c r t → is_track h' c r t.
Proof.
  intros Hun Hx Hnx (y & gs & Hr & Hy & Hgs). exists y, gs.
  split_and!; [by eapply deref_unchanged..|].
  eapply Forall2_impl; [done|]. intros g tok Hg. by eapply deref_unchanged.
Qed.

Lemma genre_cells (mk : string → Node) pre toks post :
  Forall2 (λ g tok, deref (pre ++ (mk <$> toks) ++ post) g = Some (mk tok))
    (Addr <$> seq (length pre) (length toks)) toks.
Proof.
  revert pre. induction toks as [|tok toks IH]; intros pre; simpl.
  - constructor.
  - constructor.
    + cbn. by apply list_lookup_middle.
    + specialize (IH (pre ++ [mk tok])). rewrite length_app in IH. simpl in IH.
      replace (length pre + 1) with (S (length pre)) in IH by lia.
      by rewrite <- app_assoc in IH.
Qed.

Lemma is_track_cells pre a c t :
  length pre = a → is_track (pre ++ track_cells a c t) c (Addr a) t.
Proof.
  intros <-. unfold track_cells.
  eexists _, _. split_and!.
  - cbn. by apply list_lookup_middle.
  - cbn. rewrite (lookup_app_r pre) by lia.
    by replace (S (length pre) - length pre) with 1 by lia.
  - pose proof (genre_cells (genre_node t (Addr (length pre)))
      (pre ++ [track_node t c
                 (Addr (S (length pre))
                  :: (Addr <$> seq (S (S (length pre)))
                                (length (split ";" (Genre t)))));
               year_node t (Addr (length pre))])
      (split ";" (Genre t)) []) as H.
    rewrite length_app, app_nil_r, <- app_assoc in H. simpl in H.
    by replace (length pre + 2) with (S (S (length pre))) in H by lia.
Qed.

Lemma filter_Artist_nil a (ts : list Track) :
  a ∉ Artist <$> ts → filter (λ t, Artist t = a) ts = [].
Proof.
  induction ts as [|t ts IH]; [done|]. rewrite fmap_cons, not_elem_of_cons.
  intros [Hne Hnin]. rewrite filter_cons, decide_False by done. by apply IH.
Qed.

Lemma invariant_own_property ρ done st a r :
  loop_invariant ρ done st →
  artistMap st !! a = Some r →
  a ∈ Artist <$> done ∧ is_artist (heap st) (Addr ρ) done r a.
Proof.
  intros [(cs & Hroot & Hcs) Hdom Hsafe] Ham.
  assert (a ∈ Artist <$> done) as Hin.
  { destruct (decide (a ∈ Artist <$> done)) as [|Hn]; [done|].
    rewrite (Hdom _ Hn) in Ham. done. }
  split; [done|].
  apply elem_of_first_appearances, list_elem_of_lookup in Hin as [i Hi].
  destruct (Forall2_lookup_r _ _ _ _ _ Hcs Hi) as (c' & _ & Hamc & Hisc).
  congruence.
Qed.

Lemma invariant_get_property ρ done st a :
  loop_invariant ρ done st →
  match get_property (artistMap st) a with
  | Some (Addr c) =>
      artistMap st !! a = Some (Addr c) ∧ a ∈ Artist <$> done ∧
      is_artist (heap st) (Addr ρ) done (Addr c) a
  | Some (Builtin _) => a ∈ Object_prototype_keys
  | None => (a ∉ Artist <$> done) ∧ a ∉ Object_prototype_keys
  end.
Proof.
  intros Hinv. unfold get_property.
  destruct (artistMap st !! a) as [r|] eqn:Ham.
  - destruct (invariant_own_property _ _ _ _ _ Hinv Ham) as [Hin Hart].
    destruct r as [c|k]; [done|].
    by destruct Hart as (? & ? & _).
  - case_decide; [done|]. split; [|done].
    intros Hin.
    destruct Hinv as [(cs & Hroot & Hcs) _ _].
    apply elem_of_first_appearances, list_elem_of_lookup in Hin as [i Hi].
    destruct (Forall2_lookup_r _ _ _ _ _ Hcs Hi) as (c' & _ & Hamc & _).
    congruence.
Qed.

Lemma callback_invariant ρ done t st :
  loop_invariant ρ done st →
  match callback (Addr ρ) t st with
  | (Normal _, st') => loop_invariant ρ (done ++ [t]) st'
  | (Throw _, _) => Artist t ∈ Object_prototype_keys
  end.
Proof.
  intros Hinv.
  pose proof (invariant_get_property _ _ _ (Artist t) Hinv) as Hget.
  destruct Hinv as [(cs & Hroot & Hcs) Hdom Hsafe].
  destruct (get_property (artistMap st) (Artist t)) as [[c|k]|] eqn:Hg.
  - (* the artist has a node already *)
    destruct Hget as (Ham & Hin & trs & Hc & Hnd & Htrs). simpl in Hc.
    rewrite (callback_existing _ _ _ c) by (done || by eapply lookup_lt_Some).
    set (h' := (alter _ c (heap st) ++ _)%list).
    assert (unchanged_but c (heap st) h') as Hun
      by apply unchanged_alter_app.
    split; cbn [tracks heap artistMap].
    + exists cs. split.
      { apply Hun; [|done]. intros ->. rewrite Hroot in Hc. done. }
      rewrite fmap_app. change (Artist <$> [t]) with [Artist t].
      rewrite first_appearances_snoc, decide_True by done.
      eapply Forall2_impl; [exact Hcs|].
      intros c' a' [Ham' (trs' & Hc' & Hnd' & Htrs')]. split; [done|].
      unfold is_artist, records_of. rewrite filter_app, filter_cons, filter_nil.
      destruct (decide (a' = Artist t)) as [->|Hne].
      * assert (c' = Addr c) as -> by congruence.
        simpl in Hc'. assert (trs' = trs) as -> by (unfold artist_node in *; congruence).
        rewrite decide_True by done.
        exists (trs ++ [Addr (length (heap st))]). split_and!.
        -- simpl. unfold h'. by rewrite (lookup_alter_app _ _ _ _ _ Hc).
        -- apply NoDup_app. split_and!; [done| |apply NoDup_singleton].
           intros r Hr ->%list_elem_of_singleton.
           apply list_elem_of_lookup in Hr as [i Hi].
           destruct (Forall2_lookup_l _ _ _ _ _ Htrs Hi)
             as (t' & _ & y & gs & Hy & _).
           by eapply deref_lt.
        -- apply Forall2_app.
           ++ eapply Forall2_impl; [exact Htrs|]. intros r t'.
              by eapply is_track_unchanged.
           ++ constructor; [|constructor].
              apply is_track_cells. by rewrite length_alter.
      * rewrite decide_False by done. rewrite app_nil_r.
        exists trs'. split_and!; [|done|].
        -- apply deref_Some in Hc' as (b & -> & Hb). simpl.
           apply Hun; [|done]. intros ->.
           unfold artist_node, root_node in *. congruence.
        -- eapply Forall2_impl; [exact Htrs'|]. intros r t'.
           by eapply is_track_unchanged.
    + intros a Ha. apply Hdom. rewrite fmap_app in Ha.
      by apply not_elem_of_app in Ha as [? _].
    + apply Forall_app. split; [done|]. constructor; [|constructor].
      apply list_elem_of_fmap in Hin as (t0 & -> & Ht0).
      by eapply Forall_forall in Hsafe.
  - (* the name is an inherited property of [artistMap] *)
    pose proof (callback_builtin (Addr ρ) t st k Hg) as Hthrow.
    by destruct (callback (Addr ρ) t st) as [[[]|e] st'].
  - (* a new artist *)
    destruct Hget as [Hnin Hsafe'].
    rewrite callback_new by (done || by eapply lookup_lt_Some).
    set (h' := (alter _ ρ (heap st) ++ _)%list).
    assert (unchanged_but ρ (heap st) h') as Hun
      by apply unchanged_alter_app.
    split; cbn [tracks heap artistMap].
    + exists (cs ++ [Addr (length (heap st))]). split.
      { unfold h'. by rewrite (lookup_alter_app _ _ _ _ _ Hroot). }
      rewrite fmap_app. change (Artist <$> [t]) with [Artist t].
      rewrite first_appearances_snoc, decide_False by done.
      assert (artistMap st !! Artist t = None) as Hnone.
      { unfold get_property in Hg. by destruct (artistMap st !! Artist t). }
      apply Forall2_app.
      * eapply Forall2_impl; [exact Hcs|].
        intros c' a' [Ham' (trs' & Hc' & Hnd' & Htrs')].
        assert (a' ≠ Artist t) as Hne by congruence.
        split; [by rewrite lookup_insert_ne|].
        unfold is_artist, records_of. rewrite filter_app, filter_cons, filter_nil.
        rewrite decide_False by done. rewrite app_nil_r.
        exists trs'. split_and!; [|done|].
        -- apply deref_Some in Hc' as (b & -> & Hb). simpl.
           apply Hun; [|done]. intros ->.
           unfold artist_node, root_node in *. congruence.
        -- eapply Forall2_impl; [exact Htrs'|]. intros r t'.
           by eapply is_track_unchanged.
      * constructor; [|constructor]. split; [by rewrite lookup_insert_eq|].
        exists [Addr (S (length (heap st)))]. split_and!.
        -- unfold h'. cbn. rewrite lookup_app_r by by rewrite length_alter.
           by rewrite length_alter, Nat.sub_diag.
        -- apply NoDup_singleton.
        -- unfold is_artist, records_of. rewrite filter_app, filter_cons, filter_nil.
           rewrite decide_True by done.
           replace (filter (λ t0, Artist t0 = Artist t) done) with (@nil Track).
           2:{ symmetry. by apply filter_Artist_nil. }
           constructor; [|constructor].
           unfold h'.
           rewrite (cons_middle (artist_node _ _ _)), app_assoc.
           apply is_track_cells.
           rewrite length_app, length_alter. simpl. lia.
    + intros a Ha. rewrite fmap_app in Ha.
      apply not_elem_of_app in Ha as [Ha1 Ha2].
      rewrite lookup_insert_ne; [by apply Hdom|].
      intros <-. apply Ha2. left.
    + apply Forall_app. split; [done|]. by constructor.
Qed.

Lemma run_all_invariant ρ ts done st :
  loop_invariant ρ done st →
  match run_all (callback (Addr ρ)) ts st with
  | (Normal _, st') => loop_invariant ρ (done ++ ts) st'
  | (Throw _, _) => Exists (λ t, Artist t ∈ Object_prototype_keys) ts
  end.
Proof.
  revert done st. induction ts as [|t ts IH]; intros done st Hinv.
  - cbn. by rewrite app_nil_r.
  - change (run_all (callback (Addr ρ)) (t :: ts))
      with (callback (Addr ρ) t ;; run_all (callback (Addr ρ)) ts).
    rewrite bind_run.
    pose proof (callback_invariant ρ done t st Hinv) as Hstep.
    destruct (callback (Addr ρ) t st) as [[[]|e] st']; [|by left].
    specialize (IH (done ++ [t]) st' Hstep).
    rewrite <- app_assoc in IH. simpl in IH.
    destruct (run_all (callback (Addr ρ)) ts st') as [[[]|e] st'']; [done|].
    by right.
Qed.

Lemma loop_invariant_init ts h :
  loop_invariant (length h) []
    {| tracks := ts; heap := h ++ [root_node []]; artistMap := ∅ |}.
Proof.
  split; simpl.
  - exists []. split; [by apply list_lookup_middle|constructor].
  - intros a _. apply lookup_empty.
  - constructor.
Qed.

(** How a call ends: it returns the root, stored just above the heap it
    was called in, with the invariant established for the whole input, or
    it throws the [TypeError] of line 59, and then some record names an
    artist after an inherited property of [artistMap]. *)
Lemma buildMindMap_outcome ts h :
  match buildMindMap ts h with
  | (Normal root, st) =>
      root = Addr (length h) ∧ loop_invariant (length h) ts st
  | (Throw e, _) =>
      Exists (λ t, Artist t ∈ Object_prototype_keys) ts
  end.
Proof.
  unfold buildMindMap, buildMindMap_body.
  rewrite bind_run, alloc_run. cbn [tracks heap artistMap].
  rewrite bind_run. rewrite forEach_run_all by apply keeps_tracks_callback.
  cbn [tracks].
  pose proof (run_all_invariant (length h) ts [] _ (loop_invariant_init ts h))
    as Hrun.
  fold root_node.
  destruct (run_all _ ts _) as [[[]|e] st']; [|done].
  rewrite ret_run. done.
Qed.

Lemma buildMindMap_returns_iff ts h :
  (∃ root st, buildMindMap ts h = (Normal root, st)) ↔
  Forall (λ t, Artist t ∉ Object_prototype_keys) ts.
Proof.
  pose proof (buildMindMap_outcome ts h) as Hout. split.
  - intros (root & st & Heq). rewrite Heq in Hout. by destruct Hout as [_ []].
  - intros Hsafe. destruct (buildMindMap ts h) as [[root|e] st]; [eauto|].
    apply Exists_exists in Hout as (t & Ht & Hbad).
    by eapply Forall_forall in Hsafe.
Qed.

Lemma buildMindMap_tree ts h root st :
  buildMindMap ts h = (Normal root, st) → is_tree (heap st) root ts.
Proof.
  intros Heq. pose proof (buildMindMap_outcome ts h) as Hout.
  rewrite Heq in Hout. destruct Hout as [-> [(cs & Hroot & Hcs) _ _]].
  exists cs. split; [done|].
  eapply Forall2_impl; [done|]. by intros c a [_ ?].
Qed.

(** ** From the invariant to the tree *)

Lemma Forall2_impl_r {A B} (P Q : A → B → Prop) (R : B → Prop) l k :
  Forall2 P l k → Forall R k → (∀ x y, R y → P x y → Q x y) → Forall2 Q l k.
Proof.
  intros HP HR Himpl. induction HP; inversion HR; subst; constructor; auto.
Qed.

Lemma Forall2_NoDup_l {A B} (P : A → B → Prop) l k :
  Forall2 P l k → (∀ x y y', P x y → P x y' → y = y') → NoDup k → NoDup l.
Proof.
  intros HP Hfun. induction HP as [|x y l k Hxy HP IH]; [constructor|].
  intros [Hy Hk]%NoDup_cons. constructor; [|by apply IH].
  intros Hx. apply Hy.
  apply list_elem_of_lookup in Hx as [i Hi].
  destruct (Forall2_lookup_l _ _ _ _ _ HP Hi) as (y' & Hy' & Hxy').
  rewrite (Hfun _ _ _ Hxy Hxy'). by eapply list_elem_of_lookup_2.
Qed.

Lemma children_of_deref h r n : deref h r = Some n → children_of h r = children n.
Proof. unfold children_of. by intros ->. Qed.

Lemma is_tree_for_each_record h root ts (P : ref → ref → Track → Prop) :
  is_tree h root ts →
  (∀ c r t, is_artist h root ts c (Artist t) → is_track h c r t → P c r t) →
  for_each_record h root ts P.
Proof.
  intros (cs & Hroot & Hcs) HP. unfold for_each_record.
  rewrite (children_of_deref _ _ _ Hroot). simpl.
  eapply Forall2_impl; [exact Hcs|].
  intros c a Hart. pose proof Hart as (trs & Hc & _ & Htrs).
  rewrite (children_of_deref _ _ _ Hc). simpl.
  eapply (Forall2_impl_r _ _ (λ t, Artist t = a)); [exact Htrs| |].
  - apply Forall_forall. by intros t [? _]%list_elem_of_filter.
  - intros r t <- Htr. by apply HP.
Qed.

Lemma is_tree_artists h root ts :
  is_tree h root ts →
  Forall2 (is_artist h root ts) (children_of h root)
    (first_appearances (Artist <$> ts)).
Proof.
  intros (cs & Hroot & Hcs). by rewrite (children_of_deref _ _ _ Hroot).
Qed.

(** ** Records and their track nodes, by position *)

Lemma filter_lookup_two {A} (P : A → Prop) `{∀ x, Decision (P x)}
    (l : list A) i j x y :
  i < j → l !! i = Some x → l !! j = Some y → P x → P y →
  ∃ i' j', i' < j' ∧ filter P l !! i' = Some x ∧ filter P l !! j' = Some y.
Proof.
  intros Hij Hi Hj Hx Hy.
  rewrite <- (take_drop_middle l i x Hi) in Hj |- *.
  rewrite lookup_app_r in Hj by (rewrite length_take; lia).
  rewrite length_take_le in Hj by (apply lookup_lt_Some in Hi; lia).
  destruct (j - i) as [|k] eqn:Hk; [lia|]. simpl in Hj.
  set (l1 := take i l) in *. set (l2 := drop (S i) l) in *.
  rewrite <- (take_drop_middle l2 k y Hj).
  rewrite filter_app, filter_cons, decide_True by done.
  rewrite filter_app, filter_cons, decide_True by done.
  exists (length (filter P l1)),
    (length (filter P l1) + S (length (filter P (take k l2)))).
  split_and!; [lia| |].
  - by apply list_lookup_middle.
  - rewrite lookup_app_r by lia.
    replace (_ + _ - _) with (S (length (filter P (take k l2)))) by lia.
    simpl. by apply list_lookup_middle.
Qed.

Lemma is_tree_artist_of h root ts t :
  is_tree h root ts → t ∈ ts →
  ∃ c, c ∈ children_of h root ∧ is_artist h root ts c (Artist t).
Proof.
  intros Htree Ht. apply is_tree_artists in Htree.
  assert (Artist t ∈ first_appearances (Artist <$> ts)) as Hin.
  { apply elem_of_first_appearances, list_elem_of_fmap. eauto. }
  apply list_elem_of_lookup in Hin as [i Hi].
  destruct (Forall2_lookup_r _ _ _ _ _ Htree Hi) as (c & Hc & Hart).
  exists c. split; [by eapply list_elem_of_lookup_2|done].
Qed.

Lemma is_tree_two_records h root ts i j t1 t2 :
  is_tree h root ts →
  i < j → ts !! i = Some t1 → ts !! j = Some t2 → Artist t1 = Artist t2 →
  ∃ c r1 r2, c ∈ children_of h root ∧ r1 ≠ r2 ∧
    r1 ∈ children_of h c ∧ r2 ∈ children_of h c ∧
    is_track h c r1 t1 ∧ is_track h c r2 t2.
Proof.
  intros Htree Hij Hi Hj Heq.
  destruct (is_tree_artist_of h root ts t1 Htree) as (c & Hc & Hart);
    [by eapply list_elem_of_lookup_2|].
  destruct Hart as (trs & Hdc & Hnd & Htrs).
  destruct (filter_lookup_two (λ t, Artist t = Artist t1) ts i j t1 t2)
    as (i' & j' & Hij' & Hi' & Hj'); [done..|].
  destruct (Forall2_lookup_r _ _ _ _ _ Htrs Hi') as (r1 & Hr1 & Htr1).
  destruct (Forall2_lookup_r _ _ _ _ _ Htrs Hj') as (r2 & Hr2 & Htr2).
  exists c, r1, r2. rewrite (children_of_deref _ _ _ Hdc). simpl.
  split_and!; [done| |by eapply list_elem_of_lookup_2..|done|done].
  intros <-. pose proof (NoDup_lookup _ _ _ _ Hnd Hr1 Hr2). lia.
Qed.

(** ** Counting track nodes *)

Lemma list_bind_ext_elem {A B} (f g : A → list B) (l : list A) :
  (∀ x, x ∈ l → f x = g x) → l ≫= f = l ≫= g.
Proof.
  induction l as [|x l IH]; intros Hfg; [done|].
  rewrite !bind_cons, Hfg, IH; [done| |left].
  intros y Hy. apply Hfg. by right.
Qed.

Lemma filter_ne_id (x : string) (l : list string) :
  x ∉ l → filter (λ y, y ≠ x) l = l.
Proof.
  induction l as [|y l IH]; [done|].
  rewrite not_elem_of_cons. intros [Hne Hnin].
  rewrite filter_cons, decide_True by done. by rewrite IH.
Qed.

Lemma bind_extract {B} (g : string → list B) (x : string) (l : list string) :
  NoDup l → (x ∉ l → g x = []) →
  g x ++ (filter (λ y, y ≠ x) l ≫= g) ≡ₚ l ≫= g.
Proof.
  induction l as [|y l IH]; intros Hnd Hx.
  - rewrite Hx by apply not_elem_of_nil. done.
  - apply NoDup_cons in Hnd as [Hy Hnd]. rewrite filter_cons.
    destruct (decide (y = x)) as [->|Hne].
    + rewrite decide_False by (intros H; by apply H).
      by rewrite filter_ne_id, bind_cons.
    + rewrite decide_True by done. rewrite !bind_cons.
      rewrite <- (IH Hnd).
      * by rewrite !(assoc_L (++)), (comm (++) (g x)).
      * intros Hnin. apply Hx. rewrite not_elem_of_cons. done.
Qed.

(** Grouping by artist rearranges the records: every record is in the
    group of exactly one name. *)
Lemma group_by_artist (ts : list Track) :
  first_appearances (Artist <$> ts) ≫= records_of ts ≡ₚ ts.
Proof.
  induction ts as [|t ts IH]; [done|].
  rewrite fmap_cons. cbn [first_appearances]. rewrite bind_cons.
  unfold records_of at 1. rewrite filter_cons, decide_True by done.
  rewrite (list_bind_ext_elem _ (records_of ts)).
  2:{ intros a [Hne _]%list_elem_of_filter. unfold records_of.
      by rewrite filter_cons, decide_False. }
  simpl. constructor. fold (records_of ts (Artist t)).
  rewrite bind_extract; [done|apply NoDup_first_appearances|].
  rewrite elem_of_first_appearances. apply filter_Artist_nil.
Qed.

Lemma is_tree_track_nodes h root ts :
  is_tree h root ts →
  Forall2 (λ r t, ∃ c, c ∈ children_of h root ∧ is_track h c r t)
    (track_nodes h root) (first_appearances (Artist <$> ts) ≫= records_of ts).
Proof.
  intros Htree. apply is_tree_artists in Htree.
  unfold track_nodes. apply Forall2_bind.
  assert (Forall (λ c, c ∈ children_of h root) (children_of h root)) as Hall
    by by apply Forall_forall.
  revert Hall. generalize (children_of h root) at 1 3.
  intros cs Hcs. induction Htree as [|c a cs' as' Hart _ IH]; [constructor|].
  apply Forall_cons in Hcs as [Hc Hcs]. constructor; [|by apply IH].
  destruct Hart as (trs & Hdc & _ & Htrs).
  rewrite (children_of_deref _ _ _ Hdc). simpl.
  eapply Forall2_impl; [exact Htrs|]. eauto.
Qed.

Lemma is_tree_artist_node h root ts c :
  is_tree h root ts → c ∈ children_of h root →
  ∃ a, is_artist h root ts c a.
Proof.
  intros Harts%is_tree_artists [i Hi]%list_elem_of_lookup.
  destruct (Forall2_lookup_l _ _ _ _ _ Harts Hi) as (a & _ & Hart). eauto.
Qed.

Lemma is_tree_track_node h root ts r :
  is_tree h root ts → r ∈ track_nodes h root →
  ∃ c t, c ∈ children_of h root ∧ r ∈ children_of h c ∧
         NoDup (children_of h c) ∧ is_track h c r t.
Proof.
  intros Htree (c & Hr & Hc)%list_elem_of_bind.
  destruct (is_tree_artist_node _ _ _ _ Htree Hc)
    as (a & trs & Hdc & Hnd & Htrs).
  exists c. rewrite (children_of_deref _ _ _ Hdc) in Hr |- *. simpl in *.
  apply list_elem_of_lookup in Hr as [j Hj].
  destruct (Forall2_lookup_l _ _ _ _ _ Htrs Hj) as (t & _ & Ht).
  exists t. split_and!; [done|by eapply list_elem_of_lookup_2|done..].
Qed.

Lemma is_tree_track_nodes_NoDup h root ts :
  is_tree h root ts → NoDup (track_nodes h root).
Proof.
  intros Htree.
  assert (∀ c r, c ∈ children_of h root → r ∈ children_of h c →
            NoDup (children_of h c) ∧ ∃ t, is_track h c r t) as Hchild.
  { intros c r Hc Hr.
    destruct (is_tree_artist_node _ _ _ _ Htree Hc)
      as (a & trs & Hdc & Hnd & Htrs).
    rewrite (children_of_deref _ _ _ Hdc) in Hr |- *. simpl in *.
    split; [done|]. apply list_elem_of_lookup in Hr as [j Hj].
    destruct (Forall2_lookup_l _ _ _ _ _ Htrs Hj) as (t & _ & Ht). eauto. }
  apply NoDup_bind.
  - intros c1 c2 r Hc1 Hc2 Hr1 Hr2.
    destruct (Hchild _ _ Hc1 Hr1) as [_ (t1 & y1 & gs1 & Hd1 & _)].
    destruct (Hchild _ _ Hc2 Hr2) as [_ (t2 & y2 & gs2 & Hd2 & _)].
    unfold track_node in *. congruence.
  - intros c Hc. destruct (children_of h c) as [|r trs] eqn:E; [constructor|].
    rewrite <- E. refine (proj1 (Hchild c r Hc _)). rewrite E. left.
  - eapply Forall2_NoDup_l;
      [by apply is_tree_artists| |apply NoDup_first_appearances].
    intros c a a' (? & Hd & _) (? & Hd' & _). unfold artist_node in *.
    congruence.
Qed.

Lemma is_track_leaf h c r t x :
  is_track h c r t → x ∈ children_of h r →
  ∃ n, deref h x = Some n ∧ children n = [r] ∧ type n ≠ track.
Proof.
  intros (y & gs & Hr & Hy & Hgs). rewrite (children_of_deref _ _ _ Hr).
  simpl. intros [->|Hx]%elem_of_cons.
  - by exists (year_node t r).
  - apply list_elem_of_lookup in Hx as [i Hi].
    destruct (Forall2_lookup_l _ _ _ _ _ Hgs Hi) as (tok & _ & Hg).
    by exists (genre_node t r tok).
Qed.

(** Every node of the tree is the root, an artist node, a track node, or
    a year or genre node of a track node. *)
Lemma in_tree_inv h root ts r :
  is_tree h root ts → in_tree h root r →
  r = root ∨ r ∈ children_of h root ∨ r ∈ track_nodes h root ∨
  (∃ tr, tr ∈ track_nodes h root ∧ r ∈ children_of h tr).
Proof.
  intros Htree. unfold in_tree. revert r.
  apply (rtc_ind_r (λ r, r = root ∨ r ∈ children_of h root ∨
                        r ∈ track_nodes h root ∨
                        ∃ tr, tr ∈ track_nodes h root ∧ r ∈ children_of h tr));
    [by left|].
  intros y z Hy Hyz IH. unfold child_of in Hyz.
  destruct IH as [->|[Hc|[Htr|(tr & Htr & Hytr)]]].
  - by right; left.
  - right; right; left. apply list_elem_of_bind. eauto.
  - right; right; right. eauto.
  - right; right; left.
    destruct (is_tree_track_node _ _ _ _ Htree Htr) as (c & t & _ & _ & _ & Ht).
    destruct (is_track_leaf _ _ _ _ _ Ht Hytr) as (n & Hn & Hch & _).
    rewrite (children_of_deref _ _ _ Hn), Hch in Hyz.
    by apply list_elem_of_singleton in Hyz as ->.
Qed.

Lemma track_nodes_in_tree h root r :
  r ∈ track_nodes h root → in_tree h root r.
Proof.
  intros (c & Hr & Hc)%list_elem_of_bind.
  eapply rtc_r; [apply rtc_once|]; done.
Qed.

(** ** Two calls compared *)

Section two_runs.

Variables b1 b2 : nat.

Lemma rel_JS_ret {A} (RA : A → A → Prop) a1 a2 :
  RA a1 a2 → rel_JS b1 b2 RA (mret a1) (mret a2).
Proof. by intros Ha s1 s2 Hs. Qed.

Lemma rel_JS_bind {A B} (RA : A → A → Prop) (RB : B → B → Prop)
    (m1 m2 : JS A) (k1 k2 : A → JS B) :
  rel_JS b1 b2 RA m1 m2 →
  (∀ a1 a2, RA a1 a2 → rel_JS b1 b2 RB (k1 a1) (k2 a2)) →
  rel_JS b1 b2 RB (m1 ≫= k1) (m2 ≫= k2).
Proof.
  intros Hm Hk s1 s2 Hs. rewrite !bind_run.
  destruct (Hm s1 s2 Hs) as [Hc Hs'].
  destruct (m1 s1) as [[a1|e1] s1'], (m2 s2) as [[a2|e2] s2'];
    simpl in *; try done.
  by apply Hk.
Qed.

Lemma rel_JS_alloc n1 n2 :
  rel_node b1 b2 n1 n2 → rel_JS b1 b2 (rel_ref b1 b2) (alloc n1) (alloc n2).
Proof.
  intros Hn s1 s2 [Ht (pre1 & new1 & pre2 & new2 & E1 & E2 & L1 & L2 & Hnew) Hm].
  rewrite !alloc_run. simpl. rewrite E1, E2, !length_app, L1, L2.
  rewrite (Forall2_length _ _ _ Hnew). split; [constructor|].
  split; simpl; [done| |done].
  exists pre1, (new1 ++ [n1]), pre2, (new2 ++ [n2]).
  rewrite <- !app_assoc. split_and!; [done..|].
  apply Forall2_app; [done|]. by constructor.
Qed.

Lemma rel_node_push items1 items2 n1 n2 :
  Forall2 (rel_ref b1 b2) items1 items2 →
  rel_node b1 b2 n1 n2 → rel_node b1 b2 (push items1 n1) (push items2 n2).
Proof.
  intros Hi [? ? ? ? ?]. split; simpl; [done..| |done].
  by apply Forall2_app.
Qed.

Lemma rel_JS_children_push r1 r2 items1 items2 :
  rel_ref b1 b2 r1 r2 → Forall2 (rel_ref b1 b2) items1 items2 →
  rel_JS b1 b2 eq (children_push r1 items1) (children_push r2 items2).
Proof.
  intros Hr Hi s1 s2 Hs.
  destruct Hr as [i|k]; [|by split].
  destruct Hs
    as [Ht (pre1 & new1 & pre2 & new2 & E1 & E2 & L1 & L2 & Hnew) Hm].
  rewrite !children_push_run. simpl. split; [done|].
  split; simpl; [done| |done].
  exists pre1, (alter (push items1) i new1),
    pre2, (alter (push items2) i new2).
  rewrite E1, E2, <- L1, <- L2, !alter_app_r.
  split_and!; try done. rewrite L1, L2.
  apply Forall2_alter; [done|]. intros n1 n2 _ _. by apply rel_node_push.
Qed.

Lemma rel_JS_artistMap_get k :
  rel_JS b1 b2 (option_Forall2 (rel_ref b1 b2))
    (artistMap_get k) (artistMap_get k).
Proof.
  intros s1 s2 Hs. split; [|done]. simpl. unfold get_property.
  destruct (rel_artistMap _ _ _ _ Hs k) as [r1 r2 Hr|].
  - by constructor.
  - case_decide; repeat constructor.
Qed.

Lemma rel_JS_artistMap_set k r1 r2 :
  rel_ref b1 b2 r1 r2 →
  rel_JS b1 b2 eq (artistMap_set k r1) (artistMap_set k r2).
Proof.
  intros Hr s1 s2 [Ht Hh Hm]. split; [done|]. split; simpl; [done..|].
  intros k'. destruct (decide (k = k')) as [->|Hne].
  - rewrite !lookup_insert_eq. by constructor.
  - by rewrite !lookup_insert_ne.
Qed.

Lemma rel_JS_array_map {A B} (RB : B → B → Prop) (f1 f2 : A → JS B) xs :
  (∀ x, rel_JS b1 b2 RB (f1 x) (f2 x)) →
  rel_JS b1 b2 (Forall2 RB) (array_map f1 xs) (array_map f2 xs).
Proof.
  intros Hf. induction xs as [|x xs IH]; cbn [array_map].
  - apply rel_JS_ret. constructor.
  - eapply rel_JS_bind; [apply Hf|]. intros y1 y2 Hy.
    eapply rel_JS_bind; [apply IH|]. intros ys1 ys2 Hys.
    apply rel_JS_ret. by constructor.
Qed.

Lemma rel_JS_forEach_from (cb1 cb2 : Track → JS unit) k n :
  (∀ t, rel_JS b1 b2 eq (cb1 t) (cb2 t)) →
  rel_JS b1 b2 eq (forEach_from cb1 k n) (forEach_from cb2 k n).
Proof.
  intros Hcb. revert k. induction n as [|n IH]; intros k; cbn [forEach_from].
  - by apply rel_JS_ret.
  - intros s1 s2 Hs. rewrite <- (rel_tracks _ _ _ _ Hs).
    destruct (tracks s1 !! k) as [t|]; [|by apply IH].
    eapply (rel_JS_bind eq eq (cb1 t) (cb2 t)); [apply Hcb| |done].
    intros _ _ _. apply IH.
Qed.

Lemma rel_JS_forEach (cb1 cb2 : Track → JS unit) :
  (∀ t, rel_JS b1 b2 eq (cb1 t) (cb2 t)) →
  rel_JS b1 b2 eq (forEach cb1) (forEach cb2).
Proof.
  intros Hcb s1 s2 Hs. unfold forEach. rewrite <- (rel_tracks _ _ _ _ Hs).
  by apply rel_JS_forEach_from.
Qed.

Lemma rel_JS_callback root1 root2 t :
  rel_ref b1 b2 root1 root2 →
  rel_JS b1 b2 eq (callback root1 t) (callback root2 t).
Proof.
  intros Hroot. unfold callback.
  eapply rel_JS_bind; [apply rel_JS_artistMap_get|]. intros ?? Hfound.
  eapply (rel_JS_bind (rel_ref b1 b2)).
  { destruct Hfound; [by apply rel_JS_ret|].
    apply rel_JS_alloc. split; simpl; try done; by constructor. }
  intros artistNode1 artistNode2 Hartist.
  eapply rel_JS_bind; [apply rel_JS_artistMap_get|]. intros ?? Hfound'.
  eapply (rel_JS_bind eq).
  { destruct Hfound'; [by apply rel_JS_ret|].
    eapply (rel_JS_bind eq).
    - apply rel_JS_children_push; [done|]. by repeat constructor.
    - intros _ _ _. by apply rel_JS_artistMap_set. }
  intros _ _ _.
  eapply rel_JS_bind.
  { apply rel_JS_alloc. split; simpl; try done; by constructor. }
  intros trackNode1 trackNode2 Htrack.
  eapply (rel_JS_bind eq).
  { apply rel_JS_children_push; [done|]. by repeat constructor. }
  intros _ _ _.
  eapply rel_JS_bind.
  { apply rel_JS_alloc. split; simpl; try done; by repeat constructor. }
  intros yearNode1 yearNode2 Hyear.
  eapply rel_JS_bind.
  { apply rel_JS_array_map. intros g. apply rel_JS_alloc.
    split; simpl; try done; by repeat constructor. }
  intros genreNodes1 genreNodes2 Hgenres.
  apply rel_JS_children_push; [done|]. by constructor.
Qed.

Lemma rel_JS_buildMindMap_body :
  rel_JS b1 b2 (rel_ref b1 b2) buildMindMap_body buildMindMap_body.
Proof.
  unfold buildMindMap_body.
  eapply rel_JS_bind.
  { apply rel_JS_alloc. split; simpl; try done; by constructor. }
  intros root1 root2 Hroot.
  eapply (rel_JS_bind eq).
  { apply rel_JS_forEach. intros t. by apply rel_JS_callback. }
  intros _ _ _. by apply rel_JS_ret.
Qed.

Lemma rel_heap_lookup h1 h2 i :
  rel_heap b1 b2 h1 h2 →
  option_Forall2 (rel_node b1 b2) (h1 !! (b1 + i)) (h2 !! (b2 + i)).
Proof.
  intros (pre1 & new1 & pre2 & new2 & -> & -> & <- & <- & Hnew).
  rewrite !lookup_app_r by lia.
  replace (length pre1 + i - length pre1) with i by lia.
  replace (length pre2 + i - length pre2) with i by lia.
  by apply Forall2_lookup.
Qed.

Lemma rel_view n h1 h2 r1 r2 :
  rel_heap b1 b2 h1 h2 → rel_ref b1 b2 r1 r2 →
  view n h1 r1 = view n h2 r2.
Proof.
  intros Hh. revert r1 r2. induction n as [|n IH]; intros r1 r2 Hr; [done|].
  destruct Hr as [i|k]; [|done]. simpl.
  destruct (rel_heap_lookup _ _ i Hh) as [n1 n2 [Hid Hl Ht Hc Hp]|]; [|done].
  f_equal; [done..| |].
  - destruct Hp; simpl; [|done]. f_equal. by apply IH.
  - induction Hc; simpl; [done|]. f_equal; [by apply IH|done].
Qed.
End two_runs.

(** ** The scenario of the specification *)

Example buildMindMap_scenario :
  let h := heap (buildMindMap scenario []).2 in
  let labels := fmap (λ r, (type <$> deref h r, label <$> deref h r)) in
  (buildMindMap scenario []).1 = Normal (Addr 0) ∧
  labels (children_of h (Addr 0)) =
    [(Some artist, Some "The Beatles"); (Some artist, Some "Queen")] ∧
  labels (children_of h (Addr 1)) =
    [(Some track, Some "Hey Jude"); (Some track, Some "Let It Be")] ∧
  labels (children_of h (Addr 2)) =
    [(Some year, Some "1968"); (Some genre, Some "Rock");
     (Some genre, Some "Pop")] ∧
  labels (children_of h (Addr 10)) =
    [(Some track, Some "Bohemian Rhapsody")] ∧
  labels (children_of h (Addr 11)) =
    [(Some year, Some "1975"); (Some genre, Some "Rock")].
Proof. vm_compute. done. Qed.

Example buildMindMap_mockTracks :
  let h := heap (buildMindMap mockTracks []).2 in
  (buildMindMap mockTracks []).1 = Normal (Addr 0) ∧
  (λ r, label <$> deref h r) <$> children_of h (Addr 0) =
    [Some "The Beatles"; Some "Queen"; Some "Led Zeppelin"] ∧
  length (track_nodes h (Addr 0)) = 6.
Proof. vm_compute. done. Qed.

(** ** The claims *)

(** C1.  The children of the returned root are the artist nodes, one for
    each distinct artist name, in the order in which the names first
    appear in the input: their labels are [first_appearances] of the
    artist names, a list without repetition, of the names that occur, in
    which a name stands before another only if it occurs first.  The
    track node of every record hangs under the one node of its artist. *)
Theorem buildMindMap_artists ts h0 root st :
  buildMindMap ts h0 = (Normal root, st) →
  Forall2 (λ c a, ∃ n, deref (heap st) c = Some n ∧ label n = a ∧
                       type n = artist ∧ parent n = Some root)
    (children_of (heap st) root) (first_appearances (Artist <$> ts)) ∧
  NoDup (children_of (heap st) root) ∧
  NoDup (first_appearances (Artist <$> ts)) ∧
  (∀ a, a ∈ first_appearances (Artist <$> ts) ↔ ∃ t, t ∈ ts ∧ Artist t = a) ∧
  (∀ i j a b,
     i < j →
     first_appearances (Artist <$> ts) !! i = Some a →
     first_appearances (Artist <$> ts) !! j = Some b →
     ∃ ia ib, first_index a (Artist <$> ts) = Some ia ∧
              first_index b (Artist <$> ts) = Some ib ∧ ia < ib) ∧
  for_each_record (heap st) root ts
    (λ c r t, ∃ n, deref (heap st) r = Some n ∧ label n = TrackName t ∧
                   type n = track ∧ parent n = Some c).
Proof.
  intros Htree%buildMindMap_tree.
  assert (Forall2 (λ c a, ∃ n, deref (heap st) c = Some n ∧ label n = a ∧
                               type n = artist ∧ parent n = Some root)
            (children_of (heap st) root) (first_appearances (Artist <$> ts)))
    as Hlabels.
  { eapply Forall2_impl; [by apply is_tree_artists|].
    intros c a (trs & Hc & _). by eexists. }
  split_and!.
  - done.
  - eapply Forall2_NoDup_l; [exact Hlabels| |apply NoDup_first_appearances].
    intros c a a' (n & Hn & <- & _) (n' & Hn' & <- & _). congruence.
  - apply NoDup_first_appearances.
  - intros a. rewrite elem_of_first_appearances, list_elem_of_fmap.
    split; intros (t & ? & ?); eauto.
  - apply first_appearances_order.
  - apply is_tree_for_each_record; [done|].
    intros c r t _ (y & gs & Hr & _). by eexists.
Qed.

Lemma buildMindMap_artists_witness :
  let h := heap (buildMindMap scenario []).2 in
  Forall2 (λ c a, ∃ n, deref h c = Some n ∧ label n = a ∧
                       type n = artist ∧ parent n = Some (Addr 0))
    (children_of h (Addr 0)) (first_appearances (Artist <$> scenario)) ∧
  NoDup (children_of h (Addr 0)) ∧
  NoDup (first_appearances (Artist <$> scenario)) ∧
  (∀ a, a ∈ first_appearances (Artist <$> scenario) ↔
        ∃ t, t ∈ scenario ∧ Artist t = a) ∧
  (∀ i j a b,
     i < j →
     first_appearances (Artist <$> scenario) !! i = Some a →
     first_appearances (Artist <$> scenario) !! j = Some b →
     ∃ ia ib, first_index a (Artist <$> scenario) = Some ia ∧
              first_index b (Artist <$> scenario) = Some ib ∧ ia < ib) ∧
  for_each_record h (Addr 0) scenario
    (λ c r t, ∃ n, deref h r = Some n ∧ label n = TrackName t ∧
                   type n = track ∧ parent n = Some c).
Proof.
  apply (buildMindMap_artists scenario []). vm_compute. reflexivity.
Defined.

(** C2.  The track nodes of the returned tree are as many as the records
    of the input: they are listed, each once, by [track_nodes], this list
    is as long as the input, and its nodes stand one for one for the
    records of the input, taken artist by artist. *)
Theorem buildMindMap_track_count ts h0 root st :
  buildMindMap ts h0 = (Normal root, st) →
  (∀ r, r ∈ track_nodes (heap st) root ↔
        in_tree (heap st) root r ∧ type <$> deref (heap st) r = Some track) ∧
  NoDup (track_nodes (heap st) root) ∧
  length (track_nodes (heap st) root) = length ts ∧
  ∃ ts', ts' ≡ₚ ts ∧
    Forall2 (λ r t, label <$> deref (heap st) r = Some (TrackName t) ∧
                    type <$> deref (heap st) r = Some track)
      (track_nodes (heap st) root) ts'.
Proof.
  intros Htree%buildMindMap_tree.
  pose proof (is_tree_track_nodes _ _ _ Htree) as Hall.
  split_and!.
  - intros r. split.
    + intros Hr. split; [by apply track_nodes_in_tree|].
      destruct (is_tree_track_node _ _ _ _ Htree Hr)
        as (c & t & _ & _ & _ & y & gs & -> & _). done.
    + intros [Hreach Hty].
      destruct (in_tree_inv _ _ _ _ Htree Hreach)
        as [->|[Hc|[Htr|(tr & Htr & Hytr)]]]; [| |done|].
      * destruct Htree as (cs & Hroot & _). by rewrite Hroot in Hty.
      * destruct (is_tree_artist_node _ _ _ _ Htree Hc) as (a & trs & Hd & _).
        by rewrite Hd in Hty.
      * destruct (is_tree_track_node _ _ _ _ Htree Htr)
          as (c & t & _ & _ & _ & Ht).
        destruct (is_track_leaf _ _ _ _ _ Ht Hytr) as (n & Hn & _ & Hnt).
        rewrite Hn in Hty. simpl in Hty. congruence.
  - by eapply is_tree_track_nodes_NoDup.
  - rewrite (Forall2_length _ _ _ Hall). apply Permutation_length.
    apply group_by_artist.
  - eexists. split; [apply group_by_artist|].
    eapply Forall2_impl; [exact Hall|].
    intros r t (c & _ & y & gs & -> & _). done.
Qed.

Lemma buildMindMap_track_count_witness :
  let h := heap (buildMindMap scenario []).2 in
  (∀ r, r ∈ track_nodes h (Addr 0) ↔
        in_tree h (Addr 0) r ∧ type <$> deref h r = Some track) ∧
  NoDup (track_nodes h (Addr 0)) ∧
  length (track_nodes h (Addr 0)) = length scenario ∧
  ∃ ts', ts' ≡ₚ scenario ∧
    Forall2 (λ r t, label <$> deref h r = Some (TrackName t) ∧
                    type <$> deref h r = Some track)
      (track_nodes h (Addr 0)) ts'.
Proof.
  apply (buildMindMap_track_count scenario []). vm_compute. reflexivity.
Defined.

(** C3.  The track node of a record has the year node as its first child
    and then one genre node for each piece that splitting the [Genre]
    field at [;] gives, in that order and as they are: [1 + k] children for
    [k] pieces.  The empty field gives the one piece [""]. *)
Theorem buildMindMap_track_children ts h0 root st :
  buildMindMap ts h0 = (Normal root, st) →
  for_each_record (heap st) root ts
    (λ _ r t, ∃ y gs,
       children_of (heap st) r = y :: gs ∧
       length (children_of (heap st) r) = 1 + length (split ";" (Genre t)) ∧
       (∃ n, deref (heap st) y = Some n ∧ type n = year ∧ label n = Year t) ∧
       Forall2 (λ g tok, ∃ n, deref (heap st) g = Some n ∧
                              type n = genre ∧ label n = tok)
         gs (split ";" (Genre t))) ∧
  (∀ s, length (split ";" s) = 1 + occurrences ";" s) ∧
  (∀ s, join ";" (split ";" s) = s) ∧
  split ";" "" = [""].
Proof.
  intros Htree%buildMindMap_tree. split_and!.
  - apply is_tree_for_each_record; [done|].
    intros c r t _ (y & gs & Hr & Hy & Hgs). exists y, gs.
    rewrite (children_of_deref _ _ _ Hr). simpl. split_and!.
    + done.
    + by rewrite (Forall2_length _ _ _ Hgs).
    + by exists (year_node t r).
    + eapply Forall2_impl; [done|]. intros g tok Hg.
      by exists (genre_node t r tok).
  - intros s. apply length_split.
  - intros s. apply join_split.
  - done.
Qed.

Lemma buildMindMap_track_children_witness :
  let h := heap (buildMindMap scenario []).2 in
  for_each_record h (Addr 0) scenario
    (λ _ r t, ∃ y gs,
       children_of h r = y :: gs ∧
       length (children_of h r) = 1 + length (split ";" (Genre t)) ∧
       (∃ n, deref h y = Some n ∧ type n = year ∧ label n = Year t) ∧
       Forall2 (λ g tok, ∃ n, deref h g = Some n ∧
                              type n = genre ∧ label n = tok)
         gs (split ";" (Genre t))) ∧
  (∀ s, length (split ";" s) = 1 + occurrences ";" s) ∧
  (∀ s, join ";" (split ";" s) = s) ∧
  split ";" "" = [""].
Proof.
  apply (buildMindMap_track_children scenario []). vm_compute. reflexivity.
Defined.

(** C4.  Two calls on the same input end alike, whatever the heaps they
    run in: both throw the same error, or both return, and then what can
    be seen from the two roots is the same to every depth: shape, labels,
    kinds, order of the children and identities. *)
Theorem buildMindMap_deterministic ts h1 h2 :
  match buildMindMap ts h1, buildMindMap ts h2 with
  | (Normal root1, st1), (Normal root2, st2) =>
      ∀ n, view n (heap st1) root1 = view n (heap st2) root2
  | (Throw e1, _), (Throw e2, _) => e1 = e2
  | _, _ => False
  end.
Proof.
  pose proof (rel_JS_buildMindMap_body (length h1) (length h2)
    {| tracks := ts; heap := h1; artistMap := ∅ |}
    {| tracks := ts; heap := h2; artistMap := ∅ |}) as Hrel.
  unfold buildMindMap.
  destruct Hrel as [Hc Hs].
  { split; simpl; [done| |].
    - exists h1, [], h2, []. rewrite !app_nil_r. by split_and!.
    - intros k. rewrite !lookup_empty. constructor. }
  destruct (buildMindMap_body _) as [[root1|e1] st1],
    (buildMindMap_body _) as [[root2|e2] st2]; simpl in *; try done.
  intros n. eapply rel_view; [|done]. by destruct Hs.
Qed.

(** C5.  Identities are made of labels only: the artist name for an
    artist node; artist and title for a track node; artist, title and year
    for a year node; artist, title and the piece of the genre field for a
    genre node.  No position or count enters, so two records with the same
    artist and title get two track nodes, different objects, with one and
    the same identity. *)
Theorem buildMindMap_identities ts h0 root st :
  buildMindMap ts h0 = (Normal root, st) →
  for_each_record (heap st) root ts
    (λ c r t,
       id <$> deref (heap st) c = Some (Artist t) ∧
       id <$> deref (heap st) r = Some (Artist t +:+ "-" +:+ TrackName t) ∧
       ∃ y gs,
         children_of (heap st) r = y :: gs ∧
         id <$> deref (heap st) y =
           Some (Artist t +:+ "-" +:+ TrackName t +:+ "-" +:+ Year t) ∧
         Forall2 (λ g tok, id <$> deref (heap st) g =
                    Some (Artist t +:+ "-" +:+ TrackName t +:+ "-" +:+ tok))
           gs (split ";" (Genre t))) ∧
  (∀ i j t1 t2,
     i ≠ j → ts !! i = Some t1 → ts !! j = Some t2 →
     Artist t1 = Artist t2 → TrackName t1 = TrackName t2 →
     ∃ r1 r2,
       r1 ≠ r2 ∧
       r1 ∈ track_nodes (heap st) root ∧ r2 ∈ track_nodes (heap st) root ∧
       type <$> deref (heap st) r1 = Some track ∧
       type <$> deref (heap st) r2 = Some track ∧
       id <$> deref (heap st) r1 = Some (Artist t1 +:+ "-" +:+ TrackName t1) ∧
       id <$> deref (heap st) r2 = Some (Artist t1 +:+ "-" +:+ TrackName t1)).
Proof.
  intros Htree%buildMindMap_tree. split.
  - apply is_tree_for_each_record; [done|].
    intros c r t (trs & Hc & _) (y & gs & Hr & Hy & Hgs).
    rewrite Hc, Hr. split_and!; [done..|].
    exists y, gs. rewrite (children_of_deref _ _ _ Hr), Hy.
    split_and!; [done..|].
    eapply Forall2_impl; [done|]. by intros g tok ->.
  - assert (∀ i j t1 t2,
      i < j → ts !! i = Some t1 → ts !! j = Some t2 →
      Artist t1 = Artist t2 → TrackName t1 = TrackName t2 →
      ∃ r1 r2,
        r1 ≠ r2 ∧
        r1 ∈ track_nodes (heap st) root ∧ r2 ∈ track_nodes (heap st) root ∧
        type <$> deref (heap st) r1 = Some track ∧
        type <$> deref (heap st) r2 = Some track ∧
        id <$> deref (heap st) r1 = Some (Artist t1 +:+ "-" +:+ TrackName t1) ∧
        id <$> deref (heap st) r2 = Some (Artist t1 +:+ "-" +:+ TrackName t1))
      as Hlt.
    { intros i j t1 t2 Hij Hi Hj Ha Hn.
      destruct (is_tree_two_records _ _ _ i j t1 t2 Htree)
        as (c & r1 & r2 & Hc & Hne & Hr1 & Hr2 & Ht1 & Ht2); [done..|].
      destruct Ht1 as (y1 & gs1 & Hd1 & _), Ht2 as (y2 & gs2 & Hd2 & _).
      exists r1, r2. unfold track_nodes. rewrite Hd1, Hd2. simpl.
      rewrite Ha, Hn.
      split_and!; [done| | |done..]; apply list_elem_of_bind; eauto. }
    intros i j t1 t2 Hij Hi Hj Ha Hn.
    destruct (decide (i < j)) as [Hlt'|Hge]; [by eapply Hlt|].
    destruct (Hlt j i t2 t1) as (r2 & r1 & Hne & H2 & H1 & Hty2 & Hty1 & Hid2 & Hid1);
      [lia|done..|].
    exists r1, r2. rewrite Ha, Hn. by split_and!.
Qed.

Lemma buildMindMap_identities_witness :
  let ts := repeated_title in
  let h := heap (buildMindMap ts []).2 in
  for_each_record h (Addr 0) ts
    (λ c r t,
       id <$> deref h c = Some (Artist t) ∧
       id <$> deref h r = Some (Artist t +:+ "-" +:+ TrackName t) ∧
       ∃ y gs,
         children_of h r = y :: gs ∧
         id <$> deref h y =
           Some (Artist t +:+ "-" +:+ TrackName t +:+ "-" +:+ Year t) ∧
         Forall2 (λ g tok, id <$> deref h g =
                    Some (Artist t +:+ "-" +:+ TrackName t +:+ "-" +:+ tok))
           gs (split ";" (Genre t))) ∧
  (∀ i j t1 t2,
     i ≠ j → ts !! i = Some t1 → ts !! j = Some t2 →
     Artist t1 = Artist t2 → TrackName t1 = TrackName t2 →
     ∃ r1 r2,
       r1 ≠ r2 ∧
       r1 ∈ track_nodes h (Addr 0) ∧ r2 ∈ track_nodes h (Addr 0) ∧
       type <$> deref h r1 = Some track ∧
       type <$> deref h r2 = Some track ∧
       id <$> deref h r1 = Some (Artist t1 +:+ "-" +:+ TrackName t1) ∧
       id <$> deref h r2 = Some (Artist t1 +:+ "-" +:+ TrackName t1)).
Proof.
  apply (buildMindMap_identities repeated_title []). vm_compute. reflexivity.
Defined.

(** C6 (a defect of the code).  Identities are built from labels alone, so
    they repeat when labels do: the two track nodes below are different
    objects, children of one artist node, with one and the same identity.
    The presentation uses the identity as the React key of a node among
    its siblings (line 105), which has to be unique. *)
Theorem buildMindMap_repeated_title_identities :
  let h := heap (buildMindMap repeated_title []).2 in
  (buildMindMap repeated_title []).1 = Normal (Addr 0) ∧
  children_of h (Addr 0) = [Addr 1] ∧
  children_of h (Addr 1) = [Addr 2; Addr 5] ∧
  id <$> deref h (Addr 2) = Some "Queen-We Will Rock You" ∧
  id <$> deref h (Addr 5) = Some "Queen-We Will Rock You".
Proof. vm_compute. done. Qed.

(** C7 (a defect of the code).  [artistMap] is a plain object, so a record
    whose artist is named after a property of [Object.prototype] finds a
    built-in object where line 38 expects an artist node, and line 59
    throws. *)
Theorem buildMindMap_throws_on_inherited_name :
  (buildMindMap [mkTrack "constructor" "Song" "2000" "Pop"] []).1 =
    Throw (TypeError "Cannot read properties of undefined (reading 'push')").
Proof. vm_compute. reflexivity. Qed.

(** Apart from such names the builder is total: empty and malformed fields
    are taken as they are, and the empty input gives a root without
    children. *)
Lemma buildMindMap_empty h0 :
  ∃ st, buildMindMap [] h0 = (Normal (Addr (length h0)), st) ∧
        children_of (heap st) (Addr (length h0)) = [].
Proof.
  eexists. split; [reflexivity|]. unfold children_of. simpl.
  by rewrite list_lookup_middle.
Qed.

Lemma buildMindMap_degenerate_fields :
  ∃ st, buildMindMap [mkTrack "" "" "MCMLXVIII" ""] [] = (Normal (Addr 0), st).
Proof. eexists. vm_compute. reflexivity. Qed.

(** C8.  A call leaves the input array and its records as they were,
    whether it returns or throws. *)
Theorem buildMindMap_keeps_input ts h0 :
  tracks (buildMindMap ts h0).2 = ts.
Proof. apply keeps_tracks_buildMindMap_body. Qed.

(** C9.  The year node and the genre nodes of a record each have one
    child, the track node of the record, and this track node is also their
    parent. *)
Theorem buildMindMap_back_references ts h0 root st :
  buildMindMap ts h0 = (Normal root, st) →
  for_each_record (heap st) root ts
    (λ _ r t, ∃ y gs,
       children_of (heap st) r = y :: gs ∧
       (∃ n, deref (heap st) y = Some n ∧ type n = year ∧
             children n = [r] ∧ parent n = Some r) ∧
       Forall (λ g, ∃ n, deref (heap st) g = Some n ∧ type n = genre ∧
                         children n = [r] ∧ parent n = Some r) gs).
Proof.
  intros Htree%buildMindMap_tree.
  apply is_tree_for_each_record; [done|].
  intros c r t _ (y & gs & Hr & Hy & Hgs). exists y, gs.
  rewrite (children_of_deref _ _ _ Hr). simpl. split_and!.
  - done.
  - by exists (year_node t r).
  - eapply Forall2_Forall_l; [exact Hgs|].
    apply Forall_forall. intros tok _ g Hg. by exists (genre_node t r tok).
Qed.

Lemma buildMindMap_back_references_witness :
  let h := heap (buildMindMap scenario []).2 in
  for_each_record h (Addr 0) scenario
    (λ _ r t, ∃ y gs,
       children_of h r = y :: gs ∧
       (∃ n, deref h y = Some n ∧ type n = year ∧
             children n = [r] ∧ parent n = Some r) ∧
       Forall (λ g, ∃ n, deref h g = Some n ∧ type n = genre ∧
                         children n = [r] ∧ parent n = Some r) gs).
Proof.
  apply (buildMindMap_back_references scenario []). vm_compute. reflexivity.
Defined.

(** C10.  The root returned by [buildMindMap] has the identity ["root"],
    the label ["Music Library"], the kind [artist] and no parent, whatever
    the input is. *)
Theorem buildMindMap_root ts h0 root st :
  buildMindMap ts h0 = (Normal root, st) →
  ∃ n, deref (heap st) root = Some n ∧
       id n = "root" ∧ label n = "Music Library" ∧
       type n = artist ∧ parent n = None.
Proof.
  intros (cs & Hroot & _)%buildMindMap_tree. by exists (root_node cs).
Qed.

Lemma buildMindMap_root_witness :
  ∃ n, deref (heap (buildMindMap scenario_root_names []).2) (Addr 0) = Some n ∧
       id n = "root" ∧ label n = "Music Library" ∧
       type n = artist ∧ parent n = None.
Proof.
  apply (buildMindMap_root scenario_root_names []). vm_compute. reflexivity.
Defined.

(** * Further properties of the code *)

(** ** Which calls throw, and what *)

Lemma throws_only_bind {A B} e (m : JS A) (k : A → JS B) :
  throws_only e m → (∀ a, throws_only e (k a)) → throws_only e (m ≫= k).
Proof.
  intros Hm Hk st e' st'. rewrite bind_run.
  destruct (m st) as [[a|e0] st0] eqn:E.
  - apply Hk.
  - intros [= <- <-]. by eapply Hm.
Qed.

Lemma throws_only_ret {A} e (a : A) : throws_only e (mret a).
Proof. by intros st e' st'. Qed.

Lemma throws_only_alloc e n : throws_only e (alloc n).
Proof. by intros st e' st'. Qed.

Lemma throws_only_artistMap_get e k : throws_only e (artistMap_get k).
Proof. by intros st e' st'. Qed.

Lemma throws_only_artistMap_set e k r : throws_only e (artistMap_set k r).
Proof. by intros st e' st'. Qed.

Lemma throws_only_children_push r items :
  throws_only
    (TypeError "Cannot read properties of undefined (reading 'push')")
    (children_push r items).
Proof. destruct r; intros st e' st'; [done|]. by intros [= <- <-]. Qed.

Lemma throws_only_array_map {A B} e (f : A → JS B) xs :
  (∀ x, throws_only e (f x)) → throws_only e (array_map f xs).
Proof.
  intros Hf. induction xs as [|x xs IH]; cbn [array_map].
  - apply throws_only_ret.
  - apply throws_only_bind; [done|]. intros y.
    apply throws_only_bind; [done|]. intros ys. apply throws_only_ret.
Qed.

Lemma throws_only_forEach_from e cb k n :
  (∀ t, throws_only e (cb t)) → throws_only e (forEach_from cb k n).
Proof.
  intros Hcb. revert k. induction n as [|n IH]; intros k st; cbn [forEach_from].
  - apply throws_only_ret.
  - destruct (tracks st !! k) as [t|]; [|apply IH].
    apply (throws_only_bind e (cb t) (λ _, forEach_from cb (S k) n)); auto.
Qed.

Lemma throws_only_callback root t :
  throws_only
    (TypeError "Cannot read properties of undefined (reading 'push')")
    (callback root t).
Proof.
  unfold callback.
  repeat (first [ apply throws_only_bind; [|intros ?]
                | apply throws_only_array_map; intros ?
                | case_match
                | apply throws_only_children_push
                | apply throws_only_ret
                | apply throws_only_alloc
                | apply throws_only_artistMap_get
                | apply throws_only_artistMap_set ]).
Qed.

Lemma throws_only_buildMindMap_body :
  throws_only
    (TypeError "Cannot read properties of undefined (reading 'push')")
    buildMindMap_body.
Proof.
  unfold buildMindMap_body.
  apply throws_only_bind; [apply throws_only_alloc|]. intros root.
  apply throws_only_bind; [|intros ?; apply throws_only_ret].
  intros st. apply throws_only_forEach_from. intros t.
  apply throws_only_callback.
Qed.

(** X1.  A call returns the root, the first object it allocates, when no
    record names its artist after a property that [artistMap] inherits;
    when some record does, the call throws the [TypeError] of line 59 and
    nothing else. *)
Theorem buildMindMap_returns_or_throws ts h0 :
  (Forall (λ t, Artist t ∉ Object_prototype_keys) ts ∧
   ∃ st, buildMindMap ts h0 = (Normal (Addr (length h0)), st)) ∨
  (Exists (λ t, Artist t ∈ Object_prototype_keys) ts ∧
   ∃ st, buildMindMap ts h0 =
           (Throw (TypeError
                     "Cannot read properties of undefined (reading 'push')"),
            st)).
Proof.
  pose proof (buildMindMap_outcome ts h0) as Hout.
  destruct (buildMindMap ts h0) as [[root|e] st] eqn:E.
  - left. destruct Hout as [-> [_ _ Hsafe]]. eauto.
  - right. split; [done|]. exists st.
    by rewrite (throws_only_buildMindMap_body _ _ _ E).
Qed.

(** ** The objects a call touches *)

Lemma keeps_scoped_ret {A} old (Q : A → Prop) a :
  Q a → keeps_scoped old Q (mret a).
Proof. intros Ha st Hst. split; [done|]. by intros ? [= <-]. Qed.

Lemma keeps_scoped_bind {A B} old (Q : A → Prop) (R : B → Prop)
    (m : JS A) (k : A → JS B) :
  keeps_scoped old Q m → (∀ a, Q a → keeps_scoped old R (k a)) →
  keeps_scoped old R (m ≫= k).
Proof.
  intros Hm Hk st Hst. rewrite bind_run. destruct (Hm st Hst) as [Hst' Ha].
  destruct (m st) as [[a|e] st']; simpl in *; [|done].
  apply Hk; auto.
Qed.

Lemma keeps_scoped_alloc old n :
  node_above (length old) n → keeps_scoped old (above (length old)) (alloc n).
Proof.
  intros Hn st [Hold Hlen Hnew Hmap]. rewrite alloc_run. simpl.
  split; [|by intros ? [= <-]].
  split; simpl; [|rewrite length_app; lia| |done].
  - by rewrite take_app_le.
  - rewrite drop_app_le by done. apply Forall_app. split; [done|].
    by constructor.
Qed.

Lemma node_above_push b items n :
  Forall (above b) items → node_above b n → node_above b (push items n).
Proof. intros Hi [Hc Hp]. split; simpl; [by apply Forall_app|done]. Qed.

Lemma keeps_scoped_children_push old r items :
  above (length old) r → Forall (above (length old)) items →
  keeps_scoped old (λ _, True) (children_push r items).
Proof.
  intros Hr Hi st Hst. destruct r as [a|k]; [|by split].
  destruct Hst as [Hold Hlen Hnew Hmap]. simpl in Hr.
  rewrite children_push_run. simpl. split; [|done].
  split; simpl; [|by rewrite length_alter| |done].
  - by rewrite take_alter_ge.
  - rewrite drop_alter_ge by done.
    apply Forall_alter; [done|]. intros n _. by apply node_above_push.
Qed.

Lemma keeps_scoped_artistMap_get old k :
  keeps_scoped old (λ found, ∀ r, found = Some r → above (length old) r)
    (artistMap_get k).
Proof.
  intros st Hst. split; [done|]. simpl. intros found [= <-] r.
  unfold get_property. destruct (artistMap st !! k) as [r'|] eqn:E.
  - intros [= <-]. by eapply scoped_artistMap.
  - case_decide; [|done]. by intros [= <-].
Qed.

Lemma keeps_scoped_artistMap_set old k r :
  above (length old) r → keeps_scoped old (λ _, True) (artistMap_set k r).
Proof.
  intros Hr st [Hold Hlen Hnew Hmap]. split; [|done].
  split; simpl; [done..|]. intros k' r'.
  destruct (decide (k = k')) as [->|Hne].
  - rewrite lookup_insert_eq. by intros [= <-].
  - rewrite lookup_insert_ne by done. apply Hmap.
Qed.

Lemma keeps_scoped_array_map {A B} old (Q : B → Prop) (f : A → JS B) xs :
  (∀ x, keeps_scoped old Q (f x)) →
  keeps_scoped old (Forall Q) (array_map f xs).
Proof.
  intros Hf. induction xs as [|x xs IH]; cbn [array_map].
  - by apply keeps_scoped_ret.
  - eapply keeps_scoped_bind; [apply Hf|]. intros y Hy.
    eapply keeps_scoped_bind; [apply IH|]. intros ys Hys.
    apply keeps_scoped_ret. by constructor.
Qed.

Lemma keeps_scoped_forEach_from old cb k n :
  (∀ t, keeps_scoped old (λ _, True) (cb t)) →
  keeps_scoped old (λ _, True) (forEach_from cb k n).
Proof.
  intros Hcb. revert k. induction n as [|n IH]; intros k; cbn [forEach_from].
  - by apply keeps_scoped_ret.
  - intros st Hst. destruct (tracks st !! k) as [t|]; [|by apply IH].
    eapply (keeps_scoped_bind old (λ _, True) (λ _, True) (cb t));
      [apply Hcb| |done].
    intros _ _. apply IH.
Qed.

Lemma keeps_scoped_callback old root t :
  above (length old) root →
  keeps_scoped old (λ _, True) (callback root t).
Proof.
  intros Hroot. unfold callback.
  eapply keeps_scoped_bind; [apply keeps_scoped_artistMap_get|].
  intros found Hfound.
  eapply (keeps_scoped_bind old (above (length old))).
  { destruct found as [n|]; [apply keeps_scoped_ret; auto|].
    apply keeps_scoped_alloc. split; simpl; [constructor|]. by intros ? [= <-]. }
  intros artistNode Hartist.
  eapply keeps_scoped_bind; [apply keeps_scoped_artistMap_get|].
  intros found' _.
  eapply (keeps_scoped_bind old (λ _, True)).
  { destruct found'; [by apply keeps_scoped_ret|].
    eapply (keeps_scoped_bind old (λ _, True)).
    - apply keeps_scoped_children_push; [done|]. by repeat constructor.
    - intros _ _. by apply keeps_scoped_artistMap_set. }
  intros _ _.
  eapply keeps_scoped_bind.
  { apply keeps_scoped_alloc. split; simpl; [constructor|]. by intros ? [= <-]. }
  intros trackNode Htrack.
  eapply (keeps_scoped_bind old (λ _, True)).
  { apply keeps_scoped_children_push; [done|]. by repeat constructor. }
  intros _ _.
  eapply keeps_scoped_bind.
  { apply keeps_scoped_alloc. split; simpl; [by repeat constructor|].
    by intros ? [= <-]. }
  intros yearNode Hyear.
  eapply keeps_scoped_bind.
  { apply keeps_scoped_array_map. intros g. apply keeps_scoped_alloc.
    split; simpl; [by repeat constructor|]. by intros ? [= <-]. }
  intros genreNodes Hgenres.
  apply keeps_scoped_children_push; [done|]. by constructor.
Qed.

Lemma keeps_scoped_buildMindMap_body old :
  keeps_scoped old (above (length old)) buildMindMap_body.
Proof.
  unfold buildMindMap_body.
  eapply keeps_scoped_bind.
  { apply keeps_scoped_alloc. split; simpl; [constructor|done]. }
  intros root Hroot.
  eapply (keeps_scoped_bind old (λ _, True)).
  { intros st. apply keeps_scoped_forEach_from. intros t.
    by apply keeps_scoped_callback. }
  intros _ _. by apply keeps_scoped_ret.
Qed.

Lemma scoped_init ts h0 :
  scoped h0 {| tracks := ts; heap := h0; artistMap := ∅ |}.
Proof.
  split; simpl.
  - by rewrite take_ge.
  - done.
  - rewrite drop_all. constructor.
  - intros k r. by rewrite lookup_empty.
Qed.

(** X2.  A call leaves every object that was on the heap before it as it
    was, whether it returns or throws: it writes only to objects it has
    allocated itself. *)
Theorem buildMindMap_keeps_heap ts h0 :
  take (length h0) (heap (buildMindMap ts h0).2) = h0 ∧
  ∀ a, a < length h0 → heap (buildMindMap ts h0).2 !! a = h0 !! a.
Proof.
  destruct (keeps_scoped_buildMindMap_body h0 _ (scoped_init ts h0))
    as [[Hold _ _ _] _].
  split; [done|]. intros a Ha.
  by rewrite <- Hold at 2; rewrite lookup_take_lt.
Qed.

Lemma in_tree_deref h root ts r :
  is_tree h root ts → in_tree h root r → is_Some (deref h r).
Proof.
  intros Htree Hr.
  destruct (in_tree_inv _ _ _ _ Htree Hr)
    as [->|[Hc|[Htr|(tr & Htr & Hytr)]]].
  - destruct Htree as (cs & -> & _). by eexists.
  - destruct (is_tree_artist_node _ _ _ _ Htree Hc) as (a & trs & -> & _).
    by eexists.
  - destruct (is_tree_track_node _ _ _ _ Htree Htr)
      as (c & t & _ & _ & _ & y & gs & -> & _). by eexists.
  - destruct (is_tree_track_node _ _ _ _ Htree Htr) as (c & t & _ & _ & _ & Ht).
    destruct (is_track_leaf _ _ _ _ _ Ht Hytr) as (n & -> & _). by eexists.
Qed.

Lemma in_tree_above old st root r :
  scoped old st → above (length old) root →
  in_tree (heap st) root r → above (length old) r.
Proof.
  intros [Hold Hlen Hnew Hmap] Hroot. unfold in_tree. revert r.
  apply (rtc_ind_r (above (length old))); [done|].
  intros y z _ Hyz Hy. unfold child_of, children_of in Hyz.
  destruct y as [a|k]; simpl in *; [|by apply elem_of_nil in Hyz].
  destruct (heap st !! a) as [n|] eqn:Ha; simpl in Hyz;
    [|by apply elem_of_nil in Hyz].
  assert (drop (length old) (heap st) !! (a - length old) = Some n) as Hd.
  { rewrite lookup_drop. by replace (length old + (a - length old)) with a by lia. }
  eapply Forall_lookup_1 in Hnew as [Hc _]; [|done].
  by eapply Forall_forall in Hc.
Qed.

(** X3.  Every node of the returned tree is an object that the call has
    allocated: it lies on the heap, after the objects that were there
    before the call.  The tree shares no object with anything older. *)
Theorem buildMindMap_tree_is_fresh ts h0 root st r :
  buildMindMap ts h0 = (Normal root, st) →
  in_tree (heap st) root r →
  ∃ a n, r = Addr a ∧ length h0 ≤ a ∧ heap st !! a = Some n.
Proof.
  intros Hret Hr.
  pose proof (buildMindMap_tree _ _ _ _ Hret) as Htree.
  destruct (keeps_scoped_buildMindMap_body h0 _ (scoped_init ts h0))
    as [Hsc Hroot].
  unfold buildMindMap in Hret. rewrite Hret in Hsc, Hroot. simpl in *.
  specialize (Hroot root eq_refl).
  pose proof (in_tree_above _ _ _ _ Hsc Hroot Hr) as Habove.
  destruct (in_tree_deref _ _ _ _ Htree Hr) as [n Hn].
  destruct r as [a|k]; [|done]. by exists a, n.
Qed.

Lemma buildMindMap_tree_is_fresh_witness :
  ∃ a n, Addr 4 = Addr a ∧ length [root_node []] ≤ a ∧
         heap (buildMindMap scenario [root_node []]).2 !! a = Some n.
Proof.
  apply (buildMindMap_tree_is_fresh scenario [root_node []] (Addr 1)).
  - vm_compute. reflexivity.
  - unfold in_tree.
    apply (rtc_l _ _ (Addr 2)); [vm_compute; apply list_elem_of_here|].
    apply (rtc_l _ _ (Addr 3)); [vm_compute; apply list_elem_of_here|].
    apply rtc_once. vm_compute. apply list_elem_of_here.
Defined.

(** ** The size of the tree *)

#[local] Instance Addr_inj : Inj (=) (=) Addr.
Proof. by intros a b [= ->]. Qed.

Lemma track_cells_children a c t :
  Forall (λ n, type n = track → NoDup (children n)) (track_cells a c t).
Proof.
  unfold track_cells. constructor; [|constructor].
  - intros _. simpl. constructor.
    + intros (k & [= <-] & Hk)%list_elem_of_fmap. apply elem_of_seq in Hk. lia.
    + apply NoDup_fmap_2; [apply _|]. apply NoDup_seq.
  - done.
  - apply Forall_fmap, Forall_forall. by intros.
Qed.

Lemma length_track_cells a c t : length (track_cells a c t) = 2 + pieces t.
Proof. unfold track_cells, pieces. simpl. by rewrite length_fmap. Qed.

Lemma node_count_snoc done t :
  node_count (done ++ [t]) =
    node_count done + (if decide (Artist t ∈ Artist <$> done) then 0 else 1)
    + 2 + pieces t.
Proof.
  unfold node_count. rewrite fmap_app. change (Artist <$> [t]) with [Artist t].
  rewrite first_appearances_snoc, sum_list_with_app. simpl.
  case_decide; [lia|]. rewrite length_app. simpl. lia.
Qed.

Lemma drop_alter_artist ρ f c (h : list Node) n :
  h !! c = Some n → type n = artist → type (f n) = artist →
  Forall (λ n, type n = track → NoDup (children n)) (drop ρ h) →
  Forall (λ n, type n = track → NoDup (children n)) (drop ρ (alter f c h)).
Proof.
  intros Hc Hn Hfn Hall. rewrite drop_alter. case_decide; [|done].
  apply Forall_alter; [done|]. intros n'. rewrite lookup_drop.
  replace (ρ + (c - ρ)) with c by lia. rewrite Hc. intros [= <-] _.
  rewrite Hfn. done.
Qed.

Lemma callback_census ρ done t st st' :
  loop_invariant ρ done st → census_invariant ρ done st →
  callback (Addr ρ) t st = (Normal tt, st') →
  census_invariant ρ (done ++ [t]) st'.
Proof.
  intros Hinv [Hch Hlen].
  pose proof (invariant_get_property _ _ _ (Artist t) Hinv) as Hget.
  destruct Hinv as [(cs & Hroot & Hcs) Hdom Hsafe].
  assert (ρ ≤ length (heap st)) as Hρ by lia.
  destruct (get_property (artistMap st) (Artist t)) as [[c|k]|] eqn:Hg.
  - destruct Hget as (Ham & Hin & trs & Hc & Hnd & Htrs). simpl in Hc.
    rewrite (callback_existing _ _ _ c) by (done || by eapply lookup_lt_Some).
    intros [= <-]. split; cbn [heap].
    + rewrite drop_app_le by by rewrite length_alter.
      apply Forall_app. split; [|apply track_cells_children].
      by eapply drop_alter_artist.
    + rewrite length_app, length_alter, length_track_cells, node_count_snoc.
      rewrite decide_True by done. lia.
  - pose proof (callback_builtin (Addr ρ) t st k Hg) as Hthrow.
    intros E. by rewrite E in Hthrow.
  - destruct Hget as [Hnin _].
    rewrite callback_new by (done || by eapply lookup_lt_Some).
    intros [= <-]. split; cbn [heap].
    + rewrite drop_app_le by by rewrite length_alter.
      apply Forall_app. split; [by eapply drop_alter_artist|].
      constructor; [done|apply track_cells_children].
    + rewrite length_app, length_alter, length_cons.
      rewrite length_track_cells, node_count_snoc.
      rewrite decide_False by done. lia.
Qed.

Lemma run_all_census ρ ts done st st' :
  loop_invariant ρ done st → census_invariant ρ done st →
  run_all (callback (Addr ρ)) ts st = (Normal tt, st') →
  census_invariant ρ (done ++ ts) st'.
Proof.
  revert done st. induction ts as [|t ts IH]; intros done st Hinv Hcen.
  - cbn. intros [= <-]. by rewrite app_nil_r.
  - change (run_all (callback (Addr ρ)) (t :: ts))
      with (callback (Addr ρ) t ;; run_all (callback (Addr ρ)) ts).
    rewrite bind_run.
    pose proof (callback_invariant ρ done t st Hinv) as Hstep.
    pose proof (callback_census ρ done t st) as Hstep'.
    destruct (callback (Addr ρ) t st) as [[[]|e] st1]; [|done].
    intros Hrun. rewrite cons_middle, app_assoc.
    eapply IH; [done| |done]. by apply Hstep'.
Qed.

Lemma buildMindMap_census ts h0 root st :
  buildMindMap ts h0 = (Normal root, st) →
  census_invariant (length h0) ts st.
Proof.
  unfold buildMindMap, buildMindMap_body.
  rewrite bind_run, alloc_run. cbn [tracks heap artistMap].
  rewrite bind_run. rewrite forEach_run_all by apply keeps_tracks_callback.
  cbn [tracks]. fold root_node.
  destruct (run_all _ ts _) as [[[]|e] st'] eqn:Hrun; [|done].
  rewrite ret_run. intros [= <- <-].
  eapply (run_all_census _ _ []); [apply loop_invariant_init| |done].
  split; simpl.
  - rewrite drop_app_length. by constructor.
  - rewrite length_app. unfold node_count. simpl. lia.
Qed.

Lemma is_track_leaf_type h c r t x :
  is_track h c r t → x ∈ children_of h r →
  ∃ n, deref h x = Some n ∧ children n = [r] ∧ parent n = Some r ∧
       (type n = year ∨ type n = genre).
Proof.
  intros (y & gs & Hr & Hy & Hgs). rewrite (children_of_deref _ _ _ Hr).
  simpl. intros [->|Hx]%elem_of_cons.
  - exists (year_node t r). split_and!; [done..|by left].
  - apply list_elem_of_lookup in Hx as [i Hi].
    destruct (Forall2_lookup_l _ _ _ _ _ Hgs Hi) as (tok & _ & Hg).
    exists (genre_node t r tok). split_and!; [done..|by right].
Qed.

Lemma length_bind_Forall2 {A B C} (f : A → list C) (g : B → nat) l k :
  Forall2 (λ x y, length (f x) = g y) l k →
  length (l ≫= f) = sum_list_with g k.
Proof.
  induction 1 as [|x y l k Hxy _ IH]; [done|].
  rewrite bind_cons, length_app, Hxy, IH. done.
Qed.

Lemma sum_list_with_succ {A} (g : A → nat) l :
  sum_list_with (λ x, S (g x)) l = length l + sum_list_with g l.
Proof. induction l as [|x l IH]; simpl; [done|]. rewrite IH. lia. Qed.

(** The kinds of the nodes, level by level. *)
Lemma tree_levels h root ts :
  is_tree h root ts →
  (∃ n, deref h root = Some n ∧ parent n = None) ∧
  (∀ c, c ∈ children_of h root →
        ∃ n, deref h c = Some n ∧ type n = artist ∧ parent n = Some root) ∧
  (∀ r, r ∈ track_nodes h root → ∃ n, deref h r = Some n ∧ type n = track) ∧
  (∀ x, x ∈ track_nodes h root ≫= children_of h →
        ∃ n, deref h x = Some n ∧ (type n = year ∨ type n = genre)).
Proof.
  intros Htree. split_and!.
  - destruct Htree as (cs & Hroot & _). by eexists.
  - intros c Hc.
    destruct (is_tree_artist_node _ _ _ _ Htree Hc) as (a & trs & Hd & _).
    by eexists.
  - intros r Hr.
    destruct (is_tree_track_node _ _ _ _ Htree Hr)
      as (c & t & _ & _ & _ & y & gs & Hd & _). by eexists.
  - intros x (tr & Hx & Htr)%list_elem_of_bind.
    destruct (is_tree_track_node _ _ _ _ Htree Htr) as (c & t & _ & _ & _ & Ht).
    destruct (is_track_leaf_type _ _ _ _ _ Ht Hx) as (n & Hn & _ & _ & Hty).
    by eexists.
Qed.

Lemma tree_nodes_in_tree h root ts r :
  is_tree h root ts → r ∈ tree_nodes h root ↔ in_tree h root r.
Proof.
  intros Htree. unfold tree_nodes.
  rewrite elem_of_cons, !elem_of_app. split.
  - intros [->|[Hc|[Htr|(tr & Hr & Htr)%list_elem_of_bind]]].
    + apply rtc_refl.
    + by apply rtc_once.
    + by apply track_nodes_in_tree.
    + eapply rtc_r; [by apply track_nodes_in_tree|done].
  - intros Hr.
    destruct (in_tree_inv _ _ _ _ Htree Hr)
      as [->|[Hc|[Htr|(tr & Htr & Hytr)]]]; [by left|by right; left|
                                              by right; right; left|].
    right; right; right. apply list_elem_of_bind. eauto.
Qed.

(** X4.  The returned tree has one root, one artist node for each
    distinct artist name and, for each record, a track node, a year node
    and a genre node for each piece of its [Genre] field; all of these are
    different objects, and they are all the objects the call has
    allocated. *)
Theorem buildMindMap_node_count ts h0 root st :
  buildMindMap ts h0 = (Normal root, st) →
  NoDup (tree_nodes (heap st) root) ∧
  (∀ r, r ∈ tree_nodes (heap st) root ↔ in_tree (heap st) root r) ∧
  length (tree_nodes (heap st) root) = node_count ts ∧
  length (heap st) = length h0 + node_count ts.
Proof.
  intros Hret.
  pose proof (buildMindMap_tree _ _ _ _ Hret) as Htree.
  pose proof (buildMindMap_census _ _ _ _ Hret) as [Hch Hlen].
  pose proof (tree_levels _ _ _ Htree) as (Hroot & Hcs & Htrs & Hlvs).
  pose proof (is_tree_track_nodes _ _ _ Htree) as Hall.
  destruct (keeps_scoped_buildMindMap_body h0 _ (scoped_init ts h0))
    as [Hsc Hrootabove].
  unfold buildMindMap in Hret. rewrite Hret in Hsc, Hrootabove. simpl in *.
  specialize (Hrootabove root eq_refl).
  split_and!; [|intros r; by eapply tree_nodes_in_tree| |done].
  - unfold tree_nodes. apply NoDup_cons. split.
    { rewrite !elem_of_app. destruct Hroot as (n & Hn & Hp).
      intros [Hc|[Htr|Hx]].
      - destruct (Hcs _ Hc) as (n' & Hn' & _ & Hp'). congruence.
      - destruct (Htrs _ Htr) as (n' & Hn' & Hty).
        destruct Htree as (cs & Hr & _). rewrite Hr in Hn'.
        injection Hn' as <-. done.
      - destruct (Hlvs _ Hx) as (n' & Hn' & Hty).
        destruct Htree as (cs & Hr & _). rewrite Hr in Hn'.
        injection Hn' as <-. by destruct Hty. }
    apply NoDup_app. split_and!.
    { eapply Forall2_NoDup_l;
        [by apply is_tree_artists| |apply NoDup_first_appearances].
      intros c a a' (? & Hd & _) (? & Hd' & _). unfold artist_node in *.
      congruence. }
    { intros c Hc. destruct (Hcs _ Hc) as (n & Hn & Hty & _).
      rewrite elem_of_app. intros [Htr|Hx].
      - destruct (Htrs _ Htr) as (n' & Hn' & Hty'). congruence.
      - destruct (Hlvs _ Hx) as (n' & Hn' & [Hty'|Hty']); congruence. }
    apply NoDup_app. split_and!.
    { by eapply is_tree_track_nodes_NoDup. }
    { intros r Htr Hx. destruct (Htrs _ Htr) as (n & Hn & Hty).
      destruct (Hlvs _ Hx) as (n' & Hn' & [Hty'|Hty']); congruence. }
    apply NoDup_bind.
    + intros tr1 tr2 x Htr1 Htr2 Hx1 Hx2.
      destruct (is_tree_track_node _ _ _ _ Htree Htr1)
        as (c1 & t1 & _ & _ & _ & Ht1).
      destruct (is_tree_track_node _ _ _ _ Htree Htr2)
        as (c2 & t2 & _ & _ & _ & Ht2).
      destruct (is_track_leaf _ _ _ _ _ Ht1 Hx1) as (n1 & Hn1 & Hc1 & _).
      destruct (is_track_leaf _ _ _ _ _ Ht2 Hx2) as (n2 & Hn2 & Hc2 & _).
      congruence.
    + intros tr Htr. destruct (Htrs _ Htr) as (n & Hn & Hty).
      pose proof (in_tree_above _ _ _ _ Hsc Hrootabove
                    (track_nodes_in_tree _ _ _ Htr)) as Habove.
      rewrite (children_of_deref _ _ _ Hn).
      destruct tr as [a|k]; [|done]. simpl in *.
      eapply Forall_lookup_1 in Hch; [by apply Hch|].
      rewrite lookup_drop. by replace (length h0 + (a - length h0)) with a by lia.
    + by eapply is_tree_track_nodes_NoDup.
  - unfold tree_nodes, node_count. simpl. rewrite !length_app.
    rewrite (Forall2_length _ _ _ (is_tree_artists _ _ _ Htree)).
    rewrite (Forall2_length _ _ _ Hall).
    rewrite (length_bind_Forall2 (children_of (heap st)) (λ t, S (pieces t))
               (track_nodes (heap st) root)
               (first_appearances (Artist <$> ts) ≫= records_of ts)).
    2:{ eapply Forall2_impl; [exact Hall|].
        intros r t (c & _ & y & gs & Hr & _ & Hgs).
        rewrite (children_of_deref _ _ _ Hr). simpl.
        by rewrite (Forall2_length _ _ _ Hgs). }
    rewrite !group_by_artist.
    change (λ t, 2 + pieces t) with (λ t, S (S (pieces t))).
    rewrite (sum_list_with_succ (λ t, S (pieces t))). lia.
Qed.

Lemma buildMindMap_node_count_witness :
  let h := heap (buildMindMap scenario [root_node []]).2 in
  NoDup (tree_nodes h (Addr 1)) ∧
  (∀ r, r ∈ tree_nodes h (Addr 1) ↔ in_tree h (Addr 1) r) ∧
  length (tree_nodes h (Addr 1)) = node_count scenario ∧
  length h = length [root_node []] + node_count scenario.
Proof.
  apply (buildMindMap_node_count scenario [root_node []]).
  vm_compute. reflexivity.
Defined.

(** ** Walking up *)

(** X5.  In the returned tree every node but the root has a parent, which
    is a node of the tree and has the node among its children; following
    [parent] from any node reaches the root in at most three steps, the
    cycles through [children] notwithstanding. *)
Theorem buildMindMap_parents ts h0 root st r :
  buildMindMap ts h0 = (Normal root, st) →
  in_tree (heap st) root r →
  (∃ k, k ≤ 3 ∧ ancestor k (heap st) r = Some root) ∧
  (r ≠ root →
   ∃ p, deref (heap st) r ≫= parent = Some p ∧
        in_tree (heap st) root p ∧ child_of (heap st) p r).
Proof.
  intros Htree%buildMindMap_tree Hr.
  assert (∀ c, c ∈ children_of (heap st) root →
            deref (heap st) c ≫= parent = Some root) as Hartist.
  { intros c Hc.
    destruct (is_tree_artist_node _ _ _ _ Htree Hc) as (a & trs & -> & _).
    done. }
  assert (∀ tr, tr ∈ track_nodes (heap st) root →
            ∃ c, c ∈ children_of (heap st) root ∧
                 tr ∈ children_of (heap st) c ∧
                 deref (heap st) tr ≫= parent = Some c) as Htrack.
  { intros tr Htr.
    destruct (is_tree_track_node _ _ _ _ Htree Htr)
      as (c & t & Hc & Htrc & _ & y & gs & -> & _). eauto. }
  destruct (in_tree_inv _ _ _ _ Htree Hr)
    as [->|[Hc|[Htr|(tr & Htr & Hx)]]].
  - split; [by exists 0; split; [lia|]|done].
  - split.
    + exists 1. split; [lia|]. simpl.
      specialize (Hartist _ Hc).
      destruct (deref (heap st) r) as [n|]; [|done]. simpl in *.
      by rewrite Hartist.
    + intros _. exists root. split_and!; [by apply Hartist|apply rtc_refl|done].
  - destruct (Htrack _ Htr) as (c & Hc & Hrc & Hp). split.
    + exists 2. split; [lia|]. simpl.
      destruct (deref (heap st) r) as [n|]; [|done]. simpl in *.
      rewrite Hp. simpl. specialize (Hartist _ Hc).
      destruct (deref (heap st) c) as [nc|]; [|done]. simpl in *.
      by rewrite Hartist.
    + intros _. exists c. split_and!; [done|by apply rtc_once|done].
  - destruct (Htrack _ Htr) as (c & Hc & Hrc & Hp).
    destruct (is_tree_track_node _ _ _ _ Htree Htr) as (c' & t & _ & _ & _ & Ht).
    destruct (is_track_leaf_type _ _ _ _ _ Ht Hx) as (n & Hn & _ & Hpn & _).
    split.
    + exists 3. split; [lia|]. simpl. rewrite Hn. simpl. rewrite Hpn. simpl.
      destruct (deref (heap st) tr) as [ntr|]; [|done]. simpl in *.
      rewrite Hp. simpl. specialize (Hartist _ Hc).
      destruct (deref (heap st) c) as [nc|]; [|done]. simpl in *.
      by rewrite Hartist.
    + intros _. exists tr. rewrite Hn. simpl.
      split_and!; [done|by apply track_nodes_in_tree|done].
Qed.

Lemma buildMindMap_parents_witness :
  let h := heap (buildMindMap scenario []).2 in
  (∃ k, k ≤ 3 ∧ ancestor k h (Addr 3) = Some (Addr 0)) ∧
  (Addr 3 ≠ Addr 0 →
   ∃ p, deref h (Addr 3) ≫= parent = Some p ∧
        in_tree h (Addr 0) p ∧ child_of h p (Addr 3)).
Proof.
  apply (buildMindMap_parents scenario []).
  - vm_compute. reflexivity.
  - unfold in_tree.
    apply (rtc_l _ _ (Addr 1)); [vm_compute; apply list_elem_of_here|].
    apply (rtc_l _ _ (Addr 2)); [vm_compute; apply list_elem_of_here|].
    apply rtc_once. vm_compute. apply list_elem_of_here.
Defined.

(** ** Reading the records back *)

Lemma is_tree_track_nodes_artist h root ts :
  is_tree h root ts →
  Forall2 (λ r t, ∃ c, is_artist h root ts c (Artist t) ∧ is_track h c r t)
    (track_nodes h root) (first_appearances (Artist <$> ts) ≫= records_of ts).
Proof.
  intros Htree. unfold track_nodes. apply Forall2_bind.
  pose proof (is_tree_for_each_record h root ts
    (λ c r t, is_artist h root ts c (Artist t) ∧ is_track h c r t) Htree)
    as Hall.
  eapply Forall2_impl; [apply Hall; by auto|].
  intros c a Hca. eapply Forall2_impl; [exact Hca|]. simpl. eauto.
Qed.

Lemma read_track_is_track h root ts c r t :
  is_artist h root ts c (Artist t) → is_track h c r t →
  read_track h r = Some t.
Proof.
  intros (trs & Hc & _) (y & gs & Hr & Hy & Hgs).
  unfold read_track. rewrite Hr. simpl. rewrite Hc. simpl. rewrite Hy. simpl.
  assert (mapM (λ g, label <$> deref h g) gs = Some (split ";" (Genre t)))
    as ->.
  { apply mapM_Some_2. eapply Forall2_impl; [exact Hgs|].
    by intros g tok ->. }
  simpl. rewrite join_split. by destruct t.
Qed.

(** X6.  The records can be read back from the returned tree: reading the
    track nodes artist by artist gives the records of the input, those of
    one artist together and in input order, the artists in the order of
    their first appearance.  Nothing of a record is lost, the [Genre]
    field included. *)
Theorem buildMindMap_read_tracks ts h0 root st :
  buildMindMap ts h0 = (Normal root, st) →
  read_tracks (heap st) root =
    Some (first_appearances (Artist <$> ts) ≫= records_of ts) ∧
  first_appearances (Artist <$> ts) ≫= records_of ts ≡ₚ ts.
Proof.
  intros Htree%buildMindMap_tree. split; [|apply group_by_artist].
  apply mapM_Some_2.
  eapply Forall2_impl; [by apply is_tree_track_nodes_artist|].
  intros r t (c & Hc & Hr). by eapply read_track_is_track.
Qed.

Lemma buildMindMap_read_tracks_witness :
  read_tracks (heap (buildMindMap mockTracks []).2) (Addr 0) =
    Some (first_appearances (Artist <$> mockTracks) ≫= records_of mockTracks) ∧
  first_appearances (Artist <$> mockTracks) ≫= records_of mockTracks
    ≡ₚ mockTracks.
Proof.
  apply (buildMindMap_read_tracks mockTracks []). vm_compute. reflexivity.
Defined.

(** ** Trees of the same records *)

Lemma Forall2_common {A B C} (P : A → C → Prop) (Q : B → C → Prop) l1 l2 k :
  Forall2 P l1 k → Forall2 Q l2 k →
  Forall2 (λ x1 x2, ∃ y, P x1 y ∧ Q x2 y) l1 l2.
Proof.
  intros HP. revert l2. induction HP as [|x1 y l1 k Hx _ IH]; intros l2 HQ.
  - apply Forall2_nil_inv_r in HQ as ->. constructor.
  - apply Forall2_cons_inv_r in HQ as (x2 & l2' & Hx2 & HQ & ->).
    constructor; [eauto|by apply IH].
Qed.

Lemma same_place_nodes h1 h2 root1 root2 ts x1 x2 :
  is_tree h1 root1 ts → is_tree h2 root2 ts →
  same_place h1 h2 root1 root2 ts x1 x2 →
  ∃ n1 n2,
    deref h1 x1 = Some n1 ∧ deref h2 x2 = Some n2 ∧
    id n1 = id n2 ∧ label n1 = label n2 ∧ type n1 = type n2 ∧
    Forall2 (same_place h1 h2 root1 root2 ts) (children n1) (children n2) ∧
    option_Forall2 (same_place h1 h2 root1 root2 ts) (parent n1) (parent n2).
Proof.
  intros (cs1 & Hroot1 & Hcs1) (cs2 & Hroot2 & Hcs2) Hsame.
  destruct Hsame
    as [|c1 c2 a Ha1 Ha2|c1 c2 a r1 r2 t Ha1 Ha2 Ht1 Ht2
        |c1 c2 a r1 r2 t y1 y2 Ha1 Ha2 Ht1 Ht2 Hy1 Hy2
        |c1 c2 a r1 r2 t g1 g2 tok Ha1 Ha2 Ht1 Ht2 Hg1 Hg2].
  - exists (root_node cs1), (root_node cs2). split_and!; [done..| |constructor].
    simpl. eapply Forall2_impl; [by eapply Forall2_common|].
    intros c1 c2 (a & ? & ?). by eapply same_artist.
  - pose proof Ha1 as (trs1 & Hc1 & _ & Htrs1).
    pose proof Ha2 as (trs2 & Hc2 & _ & Htrs2).
    exists (artist_node a root1 trs1), (artist_node a root2 trs2).
    split_and!; [done..| |repeat constructor].
    simpl. eapply Forall2_impl; [by eapply Forall2_common|].
    intros r1 r2 (t & ? & ?). by eapply same_track.
  - pose proof Ht1 as (y1 & gs1 & Hr1 & Hy1 & Hgs1).
    pose proof Ht2 as (y2 & gs2 & Hr2 & Hy2 & Hgs2).
    exists (track_node t c1 (y1 :: gs1)), (track_node t c2 (y2 :: gs2)).
    split_and!; [done..| |].
    + simpl. constructor; [by eapply same_year|].
      eapply Forall2_impl; [by eapply Forall2_common|].
      intros g1 g2 (tok & ? & ?). by eapply same_genre.
    + simpl. constructor. by eapply same_artist.
  - exists (year_node t r1), (year_node t r2). split_and!; [done..| |].
    + simpl. constructor; [by eapply same_track|constructor].
    + simpl. constructor. by eapply same_track.
  - exists (genre_node t r1 tok), (genre_node t r2 tok).
    split_and!; [done..| |].
    + simpl. constructor; [by eapply same_track|constructor].
    + simpl. constructor. by eapply same_track.
Qed.

Lemma same_place_view h1 h2 root1 root2 ts n x1 x2 :
  is_tree h1 root1 ts → is_tree h2 root2 ts →
  same_place h1 h2 root1 root2 ts x1 x2 →
  view n h1 x1 = view n h2 x2.
Proof.
  intros Htree1 Htree2. revert x1 x2.
  induction n as [|n IH]; intros x1 x2 Hsame; [done|].
  destruct (same_place_nodes _ _ _ _ _ _ _ Htree1 Htree2 Hsame)
    as (n1 & n2 & Hn1 & Hn2 & Hid & Hl & Hty & Hc & Hp).
  simpl. rewrite Hn1, Hn2. f_equal; [done..| |].
  - destruct Hp; simpl; [|done]. f_equal. by apply IH.
  - induction Hc; simpl; [done|]. f_equal; [by apply IH|done].
Qed.

Lemma is_tree_regroup h root ts1 ts2 :
  first_appearances (Artist <$> ts1) = first_appearances (Artist <$> ts2) →
  (∀ a, records_of ts1 a = records_of ts2 a) →
  is_tree h root ts1 → is_tree h root ts2.
Proof.
  intros Hfa Hrec (cs & Hroot & Hcs). exists cs. split; [done|].
  rewrite <- Hfa. eapply Forall2_impl; [exact Hcs|].
  intros c a (trs & Hc & Hnd & Htrs). exists trs. by rewrite <- Hrec.
Qed.

(** X7.  The tree depends on the input only through the order in which
    the artists first appear and through the records of each artist, in
    their order: two inputs that agree on these give trees that look the
    same to every depth, however the records of different artists are
    interleaved. *)
Theorem buildMindMap_interleaving ts1 ts2 h1 h2 root1 st1 root2 st2 :
  first_appearances (Artist <$> ts1) = first_appearances (Artist <$> ts2) →
  (∀ a, records_of ts1 a = records_of ts2 a) →
  buildMindMap ts1 h1 = (Normal root1, st1) →
  buildMindMap ts2 h2 = (Normal root2, st2) →
  ∀ n, view n (heap st1) root1 = view n (heap st2) root2.
Proof.
  intros Hfa Hrec Htree1%buildMindMap_tree Htree2%buildMindMap_tree n.
  eapply (is_tree_regroup _ _ _ _ Hfa Hrec) in Htree1.
  eapply same_place_view; [done..|constructor].
Qed.

Lemma buildMindMap_interleaving_witness :
  first_appearances (Artist <$> scenario_interleaved) =
    first_appearances (Artist <$> scenario) ∧
  ∀ n, view n (heap (buildMindMap scenario_interleaved []).2) (Addr 0) =
       view n (heap (buildMindMap scenario [root_node []]).2) (Addr 1).
Proof.
  split; [vm_compute; reflexivity|].
  apply (buildMindMap_interleaving scenario_interleaved scenario
           [] [root_node []]).
  - vm_compute. reflexivity.
  - intros a. unfold records_of, scenario_interleaved, scenario.
    rewrite !filter_cons, !filter_nil. simpl.
    repeat case_decide; simplify_eq; done.
  - vm_compute. reflexivity.
  - vm_compute. reflexivity.
Defined.

Lemma records_of_same_artist a b (l : list Track) :
  Forall (λ t, Artist t = b) l →
  records_of l a = if decide (b = a) then l else [].
Proof.
  unfold records_of. induction 1 as [|t l Ht _ IH].
  - by case_decide.
  - rewrite filter_cons, IH. subst b. by repeat case_decide.
Qed.

Lemma records_of_bind (g : string → list Track) a (l : list string) :
  NoDup l → (∀ b, Forall (λ t, Artist t = b) (g b)) →
  records_of (l ≫= g) a = if decide (a ∈ l) then g a else [].
Proof.
  intros Hnd Hg. induction Hnd as [|x l Hx _ IH].
  - by rewrite decide_False by apply not_elem_of_nil.
  - rewrite bind_cons. unfold records_of. rewrite filter_app.
    fold (records_of (g x) a) (records_of (l ≫= g) a).
    rewrite IH, (records_of_same_artist a x) by done.
    destruct (decide (x = a)) as [->|Hne].
    + rewrite (decide_True (P := a ∈ a :: l)) by left.
      rewrite decide_False by done. by rewrite app_nil_r.
    + destruct (decide (a ∈ l)).
      * by rewrite decide_True by by right.
      * rewrite decide_False; [done|]. rewrite elem_of_cons.
        intros [->|?]; done.
Qed.

Lemma first_appearances_block x (l : list Track) (k : list string) :
  l ≠ [] → Forall (λ t, Artist t = x) l →
  first_appearances ((Artist <$> l) ++ k) =
    x :: filter (λ y, y ≠ x) (first_appearances k).
Proof.
  intros Hl Hall. induction Hall as [|t l Ht Hall IH]; [done|].
  rewrite fmap_cons, <- app_comm_cons. cbn [first_appearances].
  rewrite Ht. f_equal. destruct l as [|t' l]; [done|].
  rewrite IH by done. rewrite filter_cons, decide_False by (intros H; by apply H).
  rewrite list_filter_filter. apply list_filter_iff. intros y. tauto.
Qed.

Lemma first_appearances_bind (g : string → list Track) (l : list string) :
  NoDup l → (∀ b, b ∈ l → g b ≠ []) →
  (∀ b, Forall (λ t, Artist t = b) (g b)) →
  first_appearances (Artist <$> (l ≫= g)) = l.
Proof.
  intros Hnd Hne Hg. induction Hnd as [|x l Hx _ IH]; [done|].
  rewrite bind_cons, fmap_app, (first_appearances_block x).
  - rewrite IH by (intros; apply Hne; by right). by rewrite filter_ne_id.
  - apply Hne. left.
  - apply Hg.
Qed.

(** The records grouped by artist have the same artists in the same order
    and the same records for each of them. *)
Lemma regrouped_agrees (ts : list Track) :
  let ts' := first_appearances (Artist <$> ts) ≫= records_of ts in
  first_appearances (Artist <$> ts') = first_appearances (Artist <$> ts) ∧
  ∀ a, records_of ts' a = records_of ts a.
Proof.
  assert (∀ b, Forall (λ t, Artist t = b) (records_of ts b)) as Hg.
  { intros b. apply Forall_forall. by intros t [? _]%list_elem_of_filter. }
  split.
  - apply first_appearances_bind;
      [apply NoDup_first_appearances| |done].
    intros b Hb Hnil.
    apply elem_of_first_appearances, list_elem_of_fmap in Hb as (t & -> & Ht).
    assert (t ∈ records_of ts (Artist t)) as Hin
      by by apply list_elem_of_filter.
    rewrite Hnil in Hin. by apply elem_of_nil in Hin.
  - intros a. rewrite records_of_bind by (done || apply NoDup_first_appearances).
    case_decide as Ha; [done|]. symmetry. apply filter_Artist_nil.
    by rewrite <- elem_of_first_appearances.
Qed.

(** X8.  Reading the records back from a returned tree and building
    again gives a tree that looks the same to every depth: the call on
    the records read back returns, and nothing tells its tree from the
    first. *)
Theorem buildMindMap_read_tracks_rebuild ts h0 root st ts' h0' :
  buildMindMap ts h0 = (Normal root, st) →
  read_tracks (heap st) root = Some ts' →
  ∃ root' st',
    buildMindMap ts' h0' = (Normal root', st') ∧
    ∀ n, view n (heap st') root' = view n (heap st) root.
Proof.
  intros Hret Hread.
  destruct (buildMindMap_read_tracks _ _ _ _ Hret) as [Hread' Hperm].
  rewrite Hread in Hread'. injection Hread' as ->.
  destruct (regrouped_agrees ts) as [Hfa Hrec].
  destruct (proj2 (buildMindMap_returns_iff
    (first_appearances (Artist <$> ts) ≫= records_of ts) h0'))
    as (root' & st' & Hret').
  { rewrite Hperm. apply (proj1 (buildMindMap_returns_iff ts h0)). eauto. }
  exists root', st'. split; [done|].
  by eapply buildMindMap_interleaving.
Qed.

Lemma buildMindMap_read_tracks_rebuild_witness :
  ∃ root' st',
    buildMindMap (first_appearances (Artist <$> scenario_interleaved)
                    ≫= records_of scenario_interleaved) [root_node []] =
      (Normal root', st') ∧
    ∀ n, view n (heap st') root' =
         view n (heap (buildMindMap scenario_interleaved []).2) (Addr 0).
Proof.
  apply (buildMindMap_read_tracks_rebuild scenario_interleaved []).
  - vm_compute. reflexivity.
  - vm_compute. reflexivity.
Defined.

(** ** [MindMapNode] *)

Example mount_empty_library :
  mount 1 (heap (buildMindMap [] []).2) (Addr 0) =
    Expanded (DomNode
      {| className :=
           "cursor-pointer p-2 rounded-lg bg-blue-500 text-white mb-2 font-bold";
         ariaLabel := "Toggle Music Library";
         caption := "Music Library" |} None).
Proof. reflexivity. Qed.

Lemma string_app_inj (p x y : string) : p +:+ x = p +:+ y → x = y.
Proof. induction p as [|c p IH]; simpl; [done|]. intros [= ?]. auto. Qed.

Lemma mapM_child_elements h (cs : list ref) (keys : list string) :
  Forall2 (λ c k, id <$> deref h c = Some k) cs keys →
  mapM (λ child, c ← deref h child; Some (id c, child)) cs =
    Some (zip keys cs).
Proof.
  induction 1 as [|c k cs keys Hc _ IH]; [done|].
  cbn. destruct (deref h c) as [n|]; [|done]. simpl in *.
  injection Hc as ->. by rewrite IH.
Qed.

Lemma child_keys_of h node n keys :
  deref h node = Some n →
  Forall2 (λ c k, id <$> deref h c = Some k) (children n) keys →
  child_keys h node = Some keys.
Proof.
  intros Hn Hkeys. unfold child_keys, MindMapNode. rewrite Hn. simpl.
  destruct (children n) as [|c cs] eqn:E.
  - apply Forall2_nil_inv_l in Hkeys as ->. done.
  - rewrite bool_decide_true by (simpl; lia).
    rewrite (mapM_child_elements _ _ _ Hkeys). simpl.
    rewrite fst_zip; [done|]. by rewrite (Forall2_length _ _ _ Hkeys).
Qed.

(** X9.  The keys that [MindMapNode] gives to the elements of the children
    of an open node are the identities of line 105.  Below the root they
    are the distinct artist names, hence never repeated.  Below an artist
    node they are repeated exactly when two records of the artist have
    the same title; below a track node exactly when the year is one of
    the pieces of the genre field or a piece occurs twice. *)
Theorem MindMapNode_child_keys ts h0 root st :
  buildMindMap ts h0 = (Normal root, st) →
  (child_keys (heap st) root = Some (first_appearances (Artist <$> ts)) ∧
   NoDup (first_appearances (Artist <$> ts))) ∧
  Forall2 (λ c a,
      child_keys (heap st) c =
        Some ((λ title, a +:+ "-" +:+ title) <$> (TrackName <$> records_of ts a)) ∧
      (NoDup ((λ title, a +:+ "-" +:+ title) <$> (TrackName <$> records_of ts a))
       ↔ NoDup (TrackName <$> records_of ts a)))
    (children_of (heap st) root) (first_appearances (Artist <$> ts)) ∧
  for_each_record (heap st) root ts
    (λ _ r t,
       child_keys (heap st) r =
         Some ((λ s, Artist t +:+ "-" +:+ TrackName t +:+ "-" +:+ s)
                 <$> (Year t :: split ";" (Genre t))) ∧
       (NoDup ((λ s, Artist t +:+ "-" +:+ TrackName t +:+ "-" +:+ s)
                 <$> (Year t :: split ";" (Genre t)))
        ↔ (Year t ∉ split ";" (Genre t)) ∧ NoDup (split ";" (Genre t)))).
Proof.
  intros Htree%buildMindMap_tree.
  assert (∀ p : string, Inj (=) (=) (λ s, p +:+ s)) as Hinj
    by (intros p x y; apply string_app_inj).
  split; [|split].
  - split; [|apply NoDup_first_appearances].
    pose proof Htree as (cs & Hroot & Hcs).
    eapply child_keys_of; [done|]. simpl.
    eapply Forall2_impl; [exact Hcs|]. by intros c a (trs & -> & _).
  - eapply Forall2_impl; [by apply is_tree_artists|].
    intros c a (trs & Hc & _ & Htrs). split.
    + eapply child_keys_of; [done|]. simpl.
      rewrite <- list_fmap_compose. apply Forall2_fmap_r.
      eapply (Forall2_impl_r _ _ (λ t, Artist t = a)); [exact Htrs| |].
      * apply Forall_forall. by intros t [? _]%list_elem_of_filter.
      * intros r t <- (y & gs & -> & _). done.
    + apply (NoDup_fmap (λ title, a +:+ "-" +:+ title)).
  - apply is_tree_for_each_record; [done|].
    intros c r t _ (y & gs & Hr & Hy & Hgs). split.
    + eapply child_keys_of; [done|]. simpl. constructor; [by rewrite Hy|].
      apply Forall2_fmap_r. eapply Forall2_impl; [exact Hgs|].
      by intros g tok ->.
    + rewrite (NoDup_fmap (λ s, Artist t +:+ "-" +:+ TrackName t +:+ "-" +:+ s)).
      apply NoDup_cons.
Qed.

Lemma MindMapNode_child_keys_witness :
  let ts := repeated_title in
  let h := heap (buildMindMap ts []).2 in
  (child_keys h (Addr 0) = Some (first_appearances (Artist <$> ts)) ∧
   NoDup (first_appearances (Artist <$> ts))) ∧
  Forall2 (λ c a,
      child_keys h c =
        Some ((λ title, a +:+ "-" +:+ title) <$> (TrackName <$> records_of ts a)) ∧
      (NoDup ((λ title, a +:+ "-" +:+ title) <$> (TrackName <$> records_of ts a))
       ↔ NoDup (TrackName <$> records_of ts a)))
    (children_of h (Addr 0)) (first_appearances (Artist <$> ts)) ∧
  for_each_record h (Addr 0) ts
    (λ _ r t,
       child_keys h r =
         Some ((λ s, Artist t +:+ "-" +:+ TrackName t +:+ "-" +:+ s)
                 <$> (Year t :: split ";" (Genre t))) ∧
       (NoDup ((λ s, Artist t +:+ "-" +:+ TrackName t +:+ "-" +:+ s)
                 <$> (Year t :: split ";" (Genre t)))
        ↔ (Year t ∉ split ";" (Genre t)) ∧ NoDup (split ";" (Genre t)))).
Proof.
  apply (MindMapNode_child_keys repeated_title []). vm_compute. reflexivity.
Defined.

Lemma mapM_child_elements_cons h c (cs : list ref) :
  Forall (λ x, is_Some (deref h x)) (c :: cs) →
  ∃ k kids,
    mapM (λ child, n ← deref h child; Some (id n, child)) (c :: cs) =
      Some ((k, c) :: kids).
Proof.
  intros Hall.
  assert (∃ keys, Forall2 (λ c k, id <$> deref h c = Some k) (c :: cs) keys)
    as [keys Hkeys].
  { induction Hall as [|x xs [n Hn] _ [keys IH]]; [by exists []|].
    exists (id n :: keys). constructor; [by rewrite Hn|done]. }
  rewrite (mapM_child_elements _ _ _ Hkeys).
  destruct keys as [|k keys]; [by apply Forall2_nil_inv_r in Hkeys|].
  by exists k, (zip keys cs).
Qed.

(** An open node whose first child has no finite expansion has none
    itself. *)
Lemma mount_first_child depth h node n c cs :
  deref h node = Some n → children n = c :: cs →
  Forall (λ x, is_Some (deref h x)) (c :: cs) →
  mount depth h c = Deeper → mount (S depth) h node = Deeper.
Proof.
  intros Hn Hc Hall Hdeep. cbn [mount]. unfold MindMapNode.
  rewrite Hn. simpl. rewrite Hc, bool_decide_true by (simpl; lia).
  destruct (mapM_child_elements_cons _ _ _ Hall) as (k & kids & ->).
  simpl. by rewrite Hdeep.
Qed.

Lemma is_track_children_deref h c r t y gs :
  deref h r = Some (track_node t c (y :: gs)) →
  deref h y = Some (year_node t r) →
  Forall2 (λ g tok, deref h g = Some (genre_node t r tok))
    gs (split ";" (Genre t)) →
  Forall (λ x, is_Some (deref h x)) (y :: gs).
Proof.
  intros Hr Hy Hgs. constructor; [by eexists|].
  eapply Forall2_Forall_l; [exact Hgs|].
  apply Forall_forall. intros tok _ g Hg. by eexists.
Qed.

Lemma mount_track h c r t depth :
  is_track h c r t → mount depth h r = Deeper.
Proof.
  intros (y & gs & Hr & Hy & Hgs).
  assert (mount depth h r = Deeper ∧ mount depth h y = Deeper) as [? _];
    [|done].
  induction depth as [|depth [IHr IHy]]; [done|]. split.
  - eapply mount_first_child; [done..| |done].
    by eapply is_track_children_deref.
  - eapply mount_first_child; [done..| |done].
    constructor; [by eexists|constructor].
Qed.

Lemma mount_artist h root ts c a depth :
  a ∈ first_appearances (Artist <$> ts) →
  is_artist h root ts c a → mount depth h c = Deeper.
Proof.
  intros Ha (trs & Hc & _ & Htrs).
  destruct depth as [|depth]; [done|].
  apply elem_of_first_appearances, list_elem_of_fmap in Ha as (t & -> & Ht).
  assert (t ∈ records_of ts (Artist t)) as Hin by by apply list_elem_of_filter.
  destruct trs as [|r trs].
  { apply Forall2_nil_inv_l in Htrs. rewrite Htrs in Hin.
    by apply elem_of_nil in Hin. }
  eapply mount_first_child; [done..| |].
  - eapply Forall2_Forall_l; [exact Htrs|].
    apply Forall_forall. intros t' _ r' (y & gs & -> & _). by eexists.
  - apply Forall2_cons_inv_l in Htrs as (t' & ? & Hr & _ & _).
    by eapply mount_track.
Qed.

(** X10.  The first render of the tree of a library that is not empty has
    no end: below every track node the year node shows the track node
    again as its child, so the nesting of [MindMapNode] elements exceeds
    every depth.  Only the tree of the empty input is rendered, as the one
    button of the root. *)
Theorem mount_buildMindMap ts h0 root st :
  buildMindMap ts h0 = (Normal root, st) →
  (ts = [] →
   mount 1 (heap st) root =
     Expanded (DomNode
       {| className :=
            "cursor-pointer p-2 rounded-lg bg-blue-500 text-white mb-2 font-bold";
          ariaLabel := "Toggle Music Library";
          caption := "Music Library" |} None)) ∧
  (ts ≠ [] → ∀ depth, mount depth (heap st) root = Deeper).
Proof.
  intros Htree%buildMindMap_tree. pose proof Htree as (cs & Hroot & Hcs).
  split.
  - intros ->. apply Forall2_nil_inv_r in Hcs as ->.
    cbn [mount]. unfold MindMapNode. rewrite Hroot. done.
  - intros Hts [|depth]; [done|].
    destruct (first_appearances (Artist <$> ts)) as [|a fa] eqn:Hfa.
    { destruct ts as [|t ts]; [done|]. discriminate Hfa. }
    apply Forall2_cons_inv_r in Hcs as (c & cs' & Hc & Hcs' & ->).
    eapply mount_first_child; [done..| |].
    + constructor; [by destruct Hc as (? & -> & _)|].
      eapply Forall2_Forall_l; [exact Hcs'|].
      apply Forall_forall. intros a' _ c' (? & -> & _). by eexists.
    + eapply (mount_artist _ _ ts); [|done]. rewrite Hfa. left.
Qed.

Lemma mount_buildMindMap_witness :
  let h := heap (buildMindMap mockTracks []).2 in
  (mockTracks = [] →
   mount 1 h (Addr 0) =
     Expanded (DomNode
       {| className :=
            "cursor-pointer p-2 rounded-lg bg-blue-500 text-white mb-2 font-bold";
          ariaLabel := "Toggle Music Library";
          caption := "Music Library" |} None)) ∧
  (mockTracks ≠ [] → ∀ depth, mount depth h (Addr 0) = Deeper).
Proof.
  apply (mount_buildMindMap mockTracks []). vm_compute. reflexivity.
Defined.

(** ** Nodes without children *)

(** X11.  The returned tree has no leaves, unless the input is empty: an
    artist node has the track nodes of its records, a track node has its
    year node and at least one genre node, and a year or genre node has
    its track node as child.  The one node without children is the root
    of the empty input. *)
Theorem buildMindMap_no_leaves ts h0 root st r :
  buildMindMap ts h0 = (Normal root, st) →
  in_tree (heap st) root r →
  (children_of (heap st) r = [] ↔ r = root ∧ ts = []) ∧
  (r ∈ track_nodes (heap st) root → 2 ≤ length (children_of (heap st) r)).
Proof.
  intros Htree%buildMindMap_tree Hr.
  pose proof Htree as (cs & Hroot & Hcs).
  assert (children_of (heap st) root = [] ↔ ts = []) as Hempty.
  { rewrite (children_of_deref _ _ _ Hroot). simpl. split.
    - intros ->. apply Forall2_nil_inv_l in Hcs.
      destruct ts as [|t ts]; [done|]. discriminate Hcs.
    - intros ->. by apply Forall2_nil_inv_r in Hcs. }
  assert (∀ tr, tr ∈ track_nodes (heap st) root →
            2 ≤ length (children_of (heap st) tr)) as Htrack.
  { intros tr Htr.
    destruct (is_tree_track_node _ _ _ _ Htree Htr)
      as (c & t & _ & _ & _ & y & gs & Hd & _ & Hgs).
    rewrite (children_of_deref _ _ _ Hd). simpl.
    rewrite (Forall2_length _ _ _ Hgs), length_split. lia. }
  split; [|apply Htrack]. split; [|by intros [-> ?%Hempty]].
  intros Hnil.
  destruct (in_tree_inv _ _ _ _ Htree Hr)
    as [->|[Hc|[Htr|(tr & Htr & Hx)]]].
  - split; [done|by apply Hempty].
  - exfalso. rewrite (children_of_deref _ _ _ Hroot) in Hc. simpl in Hc.
    apply list_elem_of_lookup in Hc as [i Hi].
    destruct (Forall2_lookup_l _ _ _ _ _ Hcs Hi)
      as (a & Ha & trs & Hd & _ & Htrs).
    rewrite (children_of_deref _ _ _ Hd) in Hnil. simpl in Hnil. subst trs.
    apply Forall2_nil_inv_l in Htrs.
    apply list_elem_of_lookup_2, elem_of_first_appearances,
      list_elem_of_fmap in Ha as (t & -> & Ht).
    assert (t ∈ records_of ts (Artist t)) as Hin
      by by apply list_elem_of_filter.
    rewrite Htrs in Hin. by apply elem_of_nil in Hin.
  - exfalso. specialize (Htrack _ Htr). rewrite Hnil in Htrack.
    simpl in Htrack. lia.
  - exfalso.
    destruct (is_tree_track_node _ _ _ _ Htree Htr) as (c & t & _ & _ & _ & Ht).
    destruct (is_track_leaf _ _ _ _ _ Ht Hx) as (n & Hn & Hch & _).
    rewrite (children_of_deref _ _ _ Hn), Hch in Hnil. done.
Qed.

Lemma buildMindMap_no_leaves_witness :
  let h := heap (buildMindMap scenario []).2 in
  (children_of h (Addr 3) = [] ↔ Addr 3 = Addr 0 ∧ scenario = []) ∧
  (Addr 3 ∈ track_nodes h (Addr 0) → 2 ≤ length (children_of h (Addr 3))).
Proof.
  apply (buildMindMap_no_leaves scenario []).
  - vm_compute. reflexivity.
  - unfold in_tree.
    apply (rtc_l _ _ (Addr 1)); [vm_compute; apply list_elem_of_here|].
    apply (rtc_l _ _ (Addr 2)); [vm_compute; apply list_elem_of_here|].
    apply rtc_once. vm_compute. apply list_elem_of_here.
Defined.

(** ** The labels of the genre nodes *)

(** X12.  No genre node has a [;] in its label, and the labels of the
    genre nodes of a record, with a [;] between them, are the [Genre]
    field of the record. *)
Theorem buildMindMap_genre_labels ts h0 root st :
  buildMindMap ts h0 = (Normal root, st) →
  for_each_record (heap st) root ts
    (λ _ r t, ∃ y gs labels,
       children_of (heap st) r = y :: gs ∧
       mapM (λ g, label <$> deref (heap st) g) gs = Some labels ∧
       Forall (λ s, occurrences ";" s = 0) labels ∧
       join ";" labels = Genre t).
Proof.
  intros Htree%buildMindMap_tree.
  apply is_tree_for_each_record; [done|].
  intros c r t _ (y & gs & Hr & Hy & Hgs).
  exists y, gs, (split ";" (Genre t)).
  rewrite (children_of_deref _ _ _ Hr). split_and!.
  - done.
  - apply mapM_Some_2. eapply Forall2_impl; [exact Hgs|]. by intros g tok ->.
  - apply Forall_forall. intros tok. apply split_tokens.
  - apply join_split.
Qed.

Lemma buildMindMap_genre_labels_witness :
  let h := heap (buildMindMap mockTracks []).2 in
  for_each_record h (Addr 0) mockTracks
    (λ _ r t, ∃ y gs labels,
       children_of h r = y :: gs ∧
       mapM (λ g, label <$> deref h g) gs = Some labels ∧
       Forall (λ s, occurrences ";" s = 0) labels ∧
       join ";" labels = Genre t).
Proof.
  apply (buildMindMap_genre_labels mockTracks []). vm_compute. reflexivity.
Defined.
